(** * The nearest-neighbours quantile filter of [nnqf_filter.py]

    A shallow embedding of [nnqf_filter] together with the parts of NumPy
    and scikit-learn that it calls, and the properties of the filter that
    follow from the code.

    Numbers.  The arrays of the program hold IEEE doubles.  Finite values are
    modelled as exact rationals ([Q]); rounding is outside the model.  The
    special values that the program can create ([inf], [-inf] and [nan],
    born in [var_weights**(-1)] and in an overflowing subtraction of
    [np.quantile]) are kept, because the behaviour of the program on a
    constant feature column and on outputs of large magnitude depends on
    them.

    Two refinements are made where the exact numbers hide what the program
    does.  [np.quantile] subtracts the neighbours' output values in the
    dtype of [y_output]: [lerp_dt] and [nnqf_filter_dt] keep the wrap of
    [int64] and the overflow of [float64] of that subtraction; within range
    they agree with [lerp] and [nnqf_filter].  The weighting of lines 80-82
    is also given on the doubles themselves ([feature_weighting_f64], on
    the binary64 floats of Rocq), rounding included.

    Exceptions.  A Python exception is modelled by its class.  The classes
    that the program can raise are [ValueError], [IndexError] and
    [AxisError]; the five further names are the failure classes that the
    specification lists, kept in the same type so that "raises [InvalidK]"
    is a statement about the program.  The constructors name the class
    that is raised, not what an [except] clause catches: in Python
    [AxisError] derives from both [ValueError] and [IndexError], and
    [ValueError] here covers the subclass with which scikit-learn rejects
    an invalid parameter. *)

From Stdlib Require Import List ZArith QArith Qabs Qpower Qminmax Qround.
From Stdlib Require Import Bool Arith Lia Lqa.
From Stdlib Require Import Sorted Permutation.
From Stdlib Require Import PrimFloat Uint63 SpecFloat FloatOps.
Import ListNotations.

Local Open Scope Q_scope.

(* ================================================================== *)
(** ** Exceptions and results *)

Inductive exn : Type :=
| ValueError              (* NumPy and scikit-learn argument checks *)
| IndexError              (* index out of bounds *)
| AxisError               (* numpy.exceptions.AxisError *)
| ShapeMismatch
| InvalidK
| InvalidQuantile
| InvalidMinkowskiOrder
| DegenerateFeature.

Inductive result (A : Type) : Type :=
| Ok (a : A)
| Raise (e : exn).

Arguments Ok {A} a.
Arguments Raise {A} e.

Definition bind {A B : Type} (r : result A) (f : A -> result B) : result B :=
  match r with
  | Ok a => f a
  | Raise e => Raise e
  end.

Notation "x <- c1 ;; c2" := (bind c1 (fun x => c2))
  (at level 61, c1 at next level, right associativity).

Definition is_ok {A : Type} (r : result A) : bool :=
  match r with Ok _ => true | Raise _ => false end.

(* ================================================================== *)
(** ** Numbers: rationals plus the IEEE special values *)

Inductive num : Type :=
| Fin (q : Q)
| PInf
| NInf
| NaN.

(** Sign of a number, [None] for [nan]. *)
Definition num_sgn (a : num) : option comparison :=
  match a with
  | Fin q => Some (q ?= 0)
  | PInf => Some Gt
  | NInf => Some Lt
  | NaN => None
  end.

Definition sgn_mul (s t : comparison) : comparison :=
  match s, t with
  | Eq, _ | _, Eq => Eq
  | Gt, Gt | Lt, Lt => Gt
  | _, _ => Lt
  end.

(** An infinite product: its sign decides between [inf] and [-inf], and
    [inf * 0] is [nan]. *)
Definition inf_of_sgn (s : comparison) : num :=
  match s with Gt => PInf | Lt => NInf | Eq => NaN end.

Definition num_mul (a b : num) : num :=
  match a, b with
  | Fin p, Fin q => Fin (p * q)
  | _, _ =>
      match num_sgn a, num_sgn b with
      | Some s, Some t => inf_of_sgn (sgn_mul s t)
      | _, _ => NaN
      end
  end.

(** [v ** (-1)] on a double: [0.0 ** (-1)] is [inf] (NumPy only warns). *)
Definition num_inv (a : num) : num :=
  match a with
  | Fin q => if Qeq_bool q 0 then PInf else Fin (/ q)
  | PInf | NInf => Fin 0
  | NaN => NaN
  end.

(** Two numbers are the same value: rationals are compared by value, a
    special value is the same as itself only. *)
Definition num_same (a b : num) : Prop :=
  match a, b with
  | Fin p, Fin q => p == q
  | PInf, PInf | NInf, NInf | NaN, NaN => True
  | _, _ => False
  end.

(** The order of doubles; [nan] compares with nothing. *)
Definition num_le (a b : num) : Prop :=
  match a, b with
  | Fin p, Fin q => p <= q
  | NInf, (Fin _ | PInf | NInf) => True
  | (Fin _ | PInf), PInf => True
  | _, _ => False
  end.

(* ================================================================== *)
(** ** Arrays *)

Definition vector := list Q.
Definition matrix := list (list Q).

(** An [ndarray] of doubles of dimension one or two.  The distinction is
    what [np.vstack] and [np.quantile (axis = 1)] look at. *)
Inductive ndarray : Type :=
| Arr1 (v : list Q)
| Arr2 (m : list (list Q)).

(** [shape x N S]: [x] is an [N]-by-[S] matrix. *)
Definition shape {A : Type} (x : list (list A)) (N S : nat) : Prop :=
  length x = N /\ Forall (fun r => length r = S) x.

Fixpoint zip_with {A B C : Type} (f : A -> B -> C) (l : list A) (m : list B)
  : list C :=
  match l, m with
  | a :: l', b :: m' => f a b :: zip_with f l' m'
  | _, _ => []
  end.

(** [np.size(x, 0)]. *)
Definition np_size0 {A : Type} (x : list (list A)) : nat := length x.

(** Number of columns of a matrix held as a list of rows. *)
Definition ncols {A : Type} (x : list (list A)) : nat :=
  match x with
  | [] => O
  | r :: _ => length r
  end.

(* ------------------------------------------------------------------ *)
(** *** [np.var(x, axis = 0)]

    NumPy's [_var]: the mean along the axis, the squared deviations from it,
    and their mean, with divisor [N] ([ddof = 0]). *)

Definition np_sum_axis0 (x : matrix) : vector :=
  match x with
  | [] => []
  | r :: rs => fold_left (zip_with Qplus) rs r
  end.

Definition np_mean_axis0 (x : matrix) : vector :=
  map (fun s => s / inject_Z (Z.of_nat (length x))) (np_sum_axis0 x).

Definition np_var_axis0 (x : matrix) : vector :=
  let arrmean := np_mean_axis0 x in
  let dev := map (fun r => zip_with Qminus r arrmean) x in
  np_mean_axis0 (map (map (fun d => d * d)) dev).

(* ------------------------------------------------------------------ *)
(** *** The feature weighting of lines 80-82

    [var_weights**(-1) * x_input]: the row of inverse variances is
    broadcast over the rows of [x_input]. *)

Definition weight_rows (w : list num) (x : matrix) : list (list num) :=
  map (fun r => zip_with num_mul w (map Fin r)) x.

Definition feature_weighting (x_input : matrix) (var_weighting : bool)
  : list (list num) :=
  if var_weighting then
    let var_weights := np_var_axis0 x_input in
    weight_rows (map (fun v => num_inv (Fin v)) var_weights) x_input
  else map (map Fin) x_input.

(* ------------------------------------------------------------------ *)
(** *** [sklearn.neighbors.NearestNeighbors]

    Modelled from the spec: scikit-learn is a library the program imports,
    its source is not part of the repository.  The search is the exact
    brute-force search of section 4.2: every sample is compared with every
    sample, itself included, the [k] closest are returned in ascending
    order of distance, and ties are broken by ascending sample index.  The
    argument checks are those of the library, which reports every one of
    them as a [ValueError]. *)

(** [check_array]: at least one sample, at least one feature, no [nan] and
    no infinity. *)
Definition finite_value (a : num) : option Q :=
  match a with Fin q => Some q | _ => None end.

Fixpoint all_finite (r : list num) : option (list Q) :=
  match r with
  | [] => Some []
  | a :: r' =>
      match finite_value a, all_finite r' with
      | Some q, Some qs => Some (q :: qs)
      | _, _ => None
      end
  end.

Fixpoint all_finite_rows (x : list (list num)) : option matrix :=
  match x with
  | [] => Some []
  | r :: x' =>
      match all_finite r, all_finite_rows x' with
      | Some q, Some qs => Some (q :: qs)
      | _, _ => None
      end
  end.

Definition check_array (x : list (list num)) : result matrix :=
  match x with
  | [] => Raise ValueError
  | r :: _ =>
      if Nat.eqb (length r) 0 then Raise ValueError
      else match all_finite_rows x with
           | Some m => Ok m
           | None => Raise ValueError
           end
  end.

(** The [p]-th power of the Minkowski distance of order [p].  Taking the
    [p]-th root is increasing, so ranking by the power is ranking by the
    distance. *)
Definition minkowski_term (p : Z) (u v : Q) : Q := Qpower (Qabs (u - v)) p.

Definition minkowski_pow (p : Z) (a b : list Q) : Q :=
  fold_right Qplus 0 (zip_with (minkowski_term p) a b).

(** The order of two indices by their keys. *)
Definition key_le (key : nat -> Q) (a b : nat) : Prop := key a <= key b.

(** Stable insertion of an index into a list of indices sorted by [key]. *)
Fixpoint insert_by (key : nat -> Q) (i : nat) (l : list nat) : list nat :=
  match l with
  | [] => [i]
  | j :: l' =>
      if Qle_bool (key i) (key j) then i :: l else j :: insert_by key i l'
  end.

(** The indices [0 .. n-1] in ascending order of [key]; equal keys stay in
    ascending order of index. *)
Definition argsort (key : nat -> Q) (n : nat) : list nat :=
  fold_right (insert_by key) [] (seq 0 n).

Record NearestNeighbors : Type := {
  nn_n_neighbors : Z;
  nn_p : Z;
  nn_fit_X : matrix
}.

(** [nn_fun(n_neighbors = k, algorithm = 'auto', p = p).fit(x)]. *)
Definition nn_fit (n_neighbors p : Z) (x : list (list num))
  : result NearestNeighbors :=
  if (n_neighbors <=? 0)%Z then Raise ValueError
  else if (p <=? 0)%Z then Raise ValueError
  else
    X <- check_array x ;;
    Ok {| nn_n_neighbors := n_neighbors; nn_p := p; nn_fit_X := X |}.

Definition kneighbors_row (m : NearestNeighbors) (query : list Q) : list nat :=
  let X := nn_fit_X m in
  firstn (Z.to_nat (nn_n_neighbors m))
         (argsort (fun j => minkowski_pow (nn_p m) query (nth j X []))
                  (length X)).

(** [x_neighbors.kneighbors(x)]: the table of indices (the distances that
    the library returns with it are not used by the program). *)
Definition kneighbors (m : NearestNeighbors) (x : list (list num))
  : result (list (list nat)) :=
  Xq <- check_array x ;;
  if (Z.of_nat (length (nn_fit_X m)) <? nn_n_neighbors m)%Z
  then Raise ValueError
  else Ok (map (kneighbors_row m) Xq).

(* ------------------------------------------------------------------ *)
(** *** Indexing and stacking *)

(** [indx[i,:]]. *)
Definition index_row (indx : list (list nat)) (i : nat) : result (list nat) :=
  match nth_error indx i with
  | Some r => Ok r
  | None => Raise IndexError
  end.

(** [y[idx]] for an array of indices [idx]. *)
Fixpoint np_take (y : vector) (idx : list nat) : result (list Q) :=
  match idx with
  | [] => Ok []
  | j :: idx' =>
      match nth_error y j with
      | Some v => vs <- np_take y idx' ;; Ok (v :: vs)
      | None => Raise IndexError
      end
  end.

(** [np.atleast_2d]. *)
Definition atleast_2d (a : ndarray) : list (list Q) :=
  match a with
  | Arr1 v => [v]
  | Arr2 m => m
  end.

(** [np.vstack([a, b])]: both arguments are made two-dimensional and
    concatenated along axis 0, which requires rows of the same length. *)
Definition np_vstack (a b : ndarray) : result ndarray :=
  let a2 := atleast_2d a in
  let b2 := atleast_2d b in
  if Nat.eqb (ncols a2) (ncols b2) then Ok (Arr2 (a2 ++ b2))
  else Raise ValueError.

(* ------------------------------------------------------------------ *)
(** *** [np.quantile(a, q, axis = 1)], method ['linear'] *)

Fixpoint insert_sorted (a : Q) (l : list Q) : list Q :=
  match l with
  | [] => [a]
  | b :: l' => if Qle_bool a b then a :: l else b :: insert_sorted a l'
  end.

Definition sort_values (l : list Q) : list Q := fold_right insert_sorted [] l.

(** [arr[i]] for a Python index: a negative [i] counts from the end. *)
Definition py_nth (arr : list Q) (i : Z) : Q :=
  if (i <? 0)%Z then nth (Z.to_nat (Z.of_nat (length arr) + i)) arr 0
  else nth (Z.to_nat i) arr 0.

(** NumPy's [_get_indexes]. *)
Definition get_indexes (n : nat) (virtual_index : Q) : Z * Z :=
  let previous := Qfloor virtual_index in
  let next := (previous + 1)%Z in
  let '(previous, next) :=
    if Qle_bool (inject_Z (Z.of_nat n) - 1) virtual_index
    then ((-1)%Z, (-1)%Z) else (previous, next) in
  if Qlt_le_dec virtual_index 0 then (0%Z, 0%Z) else (previous, next).

(** NumPy's [_lerp]. *)
Definition lerp (a b t : Q) : Q :=
  let diff_b_a := b - a in
  if Qle_bool (1 # 2) t then b - diff_b_a * (1 - t) else a + diff_b_a * t.

(** The quantile of one row; of an empty row it is [nan]. *)
Definition quantile_linear (q : Q) (row : list Q) : num :=
  match row with
  | [] => NaN
  | _ :: _ =>
      let arr := sort_values row in
      let n := length arr in
      let virtual_index := (inject_Z (Z.of_nat n) - 1) * q in
      let '(previous, next) := get_indexes n virtual_index in
      let gamma := virtual_index - inject_Z previous in
      Fin (lerp (py_nth arr previous) (py_nth arr next) gamma)
  end.

Definition quantile_is_valid (q : Q) : bool := Qle_bool 0 q && Qle_bool q 1.

Definition np_quantile_axis1 (a : ndarray) (q : Q) : result (list num) :=
  if negb (quantile_is_valid q) then Raise ValueError
  else match a with
       | Arr1 _ => Raise AxisError
       | Arr2 m => Ok (map (quantile_linear q) m)
       end.

(* ================================================================== *)
(** ** The filter *)

(** Lines 98-100: the body of the loop, for the values of [i] still to
    come. *)
Fixpoint stack_rows (y_output : vector) (indx : list (list nat))
         (todo : list nat) (y_neighbors : ndarray) : result ndarray :=
  match todo with
  | [] => Ok y_neighbors
  | i :: todo' =>
      row <- index_row indx i ;;
      values_to_add <- np_take y_output row ;;
      y_neighbors' <- np_vstack y_neighbors (Arr1 values_to_add) ;;
      stack_rows y_output indx todo' y_neighbors'
  end.

(** Lines 97-100: the table of the neighbours' output values, for a matrix
    of [n] rows. *)
Definition neighbor_outputs (y_output : vector) (indx : list (list nat))
           (n : nat) : result ndarray :=
  row0 <- index_row indx 0 ;;
  y_neighbors <- np_take y_output row0 ;;
  stack_rows y_output indx (seq 1 (n - 1)) (Arr1 y_neighbors).

Definition nnqf_filter (x_input : matrix) (y_output : vector)
           (num_neighbors : Z) (q_quantile : Q) (var_weighting : bool)
           (minkowski_dist : Z) : result (list num) :=
  let x_input := feature_weighting x_input var_weighting in
  x_neighbors <- nn_fit num_neighbors minkowski_dist x_input ;;
  indx <- kneighbors x_neighbors x_input ;;
  y_neighbors <- neighbor_outputs y_output indx (np_size0 x_input) ;;
  np_quantile_axis1 y_neighbors q_quantile.

(** The table of neighbour indices that the filter works with. *)
Definition neighbor_table (x_input : matrix) (num_neighbors : Z)
           (var_weighting : bool) (minkowski_dist : Z)
  : result (list (list nat)) :=
  let x_input := feature_weighting x_input var_weighting in
  x_neighbors <- nn_fit num_neighbors minkowski_dist x_input ;;
  kneighbors x_neighbors x_input.

(* ------------------------------------------------------------------ *)
(** *** [np.quantile] in the dtype of [y_output]

    [y_output] is an array of [int64] (as in the example of lines 114-126)
    or of [float64].  The rows gathered from it have its dtype, and
    [_lerp] computes [subtract(b, a)] in that dtype: with wrap-around for
    [int64], with overflow to an infinity for [float64].  The product
    with [t] and what follows are computed in doubles. *)

Inductive dtype : Type := Int64 | Float64.

(** Two's complement wrap-around of an integer to 64 bits. *)
Definition wrap_int64 (z : Z) : Z := ((z + 2 ^ 63) mod 2 ^ 64 - 2 ^ 63)%Z.

(** The largest double. *)
Definition max_float64 : Q := inject_Z ((2 ^ 53 - 1) * 2 ^ 971).

(** A result as a double, as far as its range goes. *)
Definition to_float64 (v : Q) : num :=
  if Qle_bool v max_float64 then
    if Qle_bool (- max_float64) v then Fin v else NInf
  else PInf.

(** [subtract(b, a)] on two values of an array of dtype [dt]. *)
Definition np_subtract (dt : dtype) (b a : Q) : num :=
  match dt with
  | Int64 => Fin (inject_Z (wrap_int64 (Qfloor b - Qfloor a)))
  | Float64 => to_float64 (b - a)
  end.

Definition num_opp (a : num) : num :=
  match a with
  | Fin q => Fin (- q)
  | PInf => NInf
  | NInf => PInf
  | NaN => NaN
  end.

Definition num_add (a b : num) : num :=
  match a, b with
  | Fin p, Fin q => Fin (p + q)
  | NaN, _ | _, NaN => NaN
  | PInf, NInf | NInf, PInf => NaN
  | PInf, _ | _, PInf => PInf
  | NInf, _ | _, NInf => NInf
  end.

Definition num_sub (a b : num) : num := num_add a (num_opp b).

(** NumPy's [_lerp] on values of dtype [dt]. *)
Definition lerp_dt (dt : dtype) (a b t : Q) : num :=
  let diff_b_a := np_subtract dt b a in
  if Qle_bool (1 # 2) t
  then num_sub (Fin b) (num_mul diff_b_a (Fin (1 - t)))
  else num_add (Fin a) (num_mul diff_b_a (Fin t)).

Definition quantile_linear_dt (dt : dtype) (q : Q) (row : list Q) : num :=
  match row with
  | [] => NaN
  | _ :: _ =>
      let arr := sort_values row in
      let n := length arr in
      let virtual_index := (inject_Z (Z.of_nat n) - 1) * q in
      let '(previous, next) := get_indexes n virtual_index in
      let gamma := virtual_index - inject_Z previous in
      lerp_dt dt (py_nth arr previous) (py_nth arr next) gamma
  end.

Definition np_quantile_axis1_dt (dt : dtype) (a : ndarray) (q : Q)
  : result (list num) :=
  if negb (quantile_is_valid q) then Raise ValueError
  else match a with
       | Arr1 _ => Raise AxisError
       | Arr2 m => Ok (map (quantile_linear_dt dt q) m)
       end.

(** Lines 97-108, for the table of indices that the search has returned
    and a matrix of [n] rows. *)
Definition filter_table (dt : dtype) (y_output : vector)
           (indx : list (list nat)) (n : nat) (q_quantile : Q)
  : result (list num) :=
  y_neighbors <- neighbor_outputs y_output indx n ;;
  np_quantile_axis1_dt dt y_neighbors q_quantile.

(** The filter for a [y_output] of dtype [dt]. *)
Definition nnqf_filter_dt (dt : dtype) (x_input : matrix) (y_output : vector)
           (num_neighbors : Z) (q_quantile : Q) (var_weighting : bool)
           (minkowski_dist : Z) : result (list num) :=
  let x_input := feature_weighting x_input var_weighting in
  x_neighbors <- nn_fit num_neighbors minkowski_dist x_input ;;
  indx <- kneighbors x_neighbors x_input ;;
  filter_table dt y_output indx (np_size0 x_input) q_quantile.

(** The largest value of a dtype. *)
Definition dtype_max (dt : dtype) : Q :=
  match dt with
  | Int64 => inject_Z (2 ^ 63 - 1)
  | Float64 => max_float64
  end.

(** The values of [y] are values of dtype [dt]. *)
Definition array_of (dt : dtype) (y : vector) : Prop :=
  Forall (fun v =>
            match dt with
            | Int64 =>
                v == inject_Z (Qfloor v)
                /\ (- 2 ^ 63 <= Qfloor v < 2 ^ 63)%Z
            | Float64 => - max_float64 <= v /\ v <= max_float64
            end) y.

(* ------------------------------------------------------------------ *)
(** *** Lines 80-82 on doubles

    The same computation as [np_var_axis0] and [feature_weighting], on
    the binary64 floats of Rocq, so with the rounding, the overflow and
    the underflow of the program.  Sums run over the rows in order, as
    the reduction along axis 0 of a matrix stored row by row adds one row
    after the other; a matrix of integers, such as the one of lines
    114-123, is first converted to doubles, and [var_weights**(-1)] is the
    reciprocal [1 / v]. *)

Definition float64_of_nat (n : nat) : float :=
  PrimFloat.of_uint63 (Uint63.of_Z (Z.of_nat n)).

Definition np_sum_axis0_f64 (x : list (list float)) : list float :=
  match x with
  | [] => []
  | r :: rs => fold_left (zip_with PrimFloat.add) rs r
  end.

Definition np_mean_axis0_f64 (x : list (list float)) : list float :=
  map (fun s => PrimFloat.div s (float64_of_nat (length x)))
      (np_sum_axis0_f64 x).

Definition np_var_axis0_f64 (x : list (list float)) : list float :=
  let arrmean := np_mean_axis0_f64 x in
  let dev := map (fun r => zip_with PrimFloat.sub r arrmean) x in
  np_mean_axis0_f64 (map (map (fun d => PrimFloat.mul d d)) dev).

Definition feature_weighting_f64 (x_input : list (list float))
           (var_weighting : bool) : list (list float) :=
  if var_weighting then
    let var_weights := np_var_axis0_f64 x_input in
    map (fun r =>
           zip_with PrimFloat.mul
                    (map (fun v => PrimFloat.div 1%float v) var_weights) r)
        x_input
  else x_input.

(** The value of a double. *)
Definition value_of (f : float) : num :=
  match Prim2SF f with
  | S754_zero _ => Fin 0
  | S754_infinity false => PInf
  | S754_infinity true => NInf
  | S754_nan => NaN
  | S754_finite s m e =>
      Fin ((if s then - inject_Z (Z.pos m) else inject_Z (Z.pos m))
           * Qpower 2 e)
  end.

(** Column [j] of a matrix of doubles, and the variance of a list of
    doubles written out for one column: the mean of the squared
    deviations from the mean, every operation rounded. *)
Definition column_f64 (j : nat) (x : list (list float)) : list float :=
  map (fun r => nth j r nan) x.

Definition sum_f64 (l : list float) : float :=
  match l with
  | [] => 0%float
  | a :: l' => fold_left PrimFloat.add l' a
  end.

Definition mean_f64 (l : list float) : float :=
  PrimFloat.div (sum_f64 l) (float64_of_nat (length l)).

Definition variance_f64 (l : list float) : float :=
  let m := mean_f64 l in
  mean_f64 (map (fun c => PrimFloat.mul (PrimFloat.sub c m)
                                        (PrimFloat.sub c m)) l).

(** Small matrices of doubles: three samples of two features; the double
    nearest to one tenth, with its exact value; and values whose squares
    overflow. *)
Definition small_xf : list (list float) :=
  [[0; 0]; [2; 1]; [4; 8]]%float.

Definition tenth_f64 : float := 0x1.999999999999ap-4%float.
Definition tenth : Q := 3602879701896397 # 36028797018963968.

Definition huge_xf : list (list float) :=
  [[0x1p600]; [-0x1p600]; [0]]%float.
Definition huge_x : matrix :=
  [[inject_Z (2 ^ 600)]; [inject_Z (- 2 ^ 600)]; [0]].

(* ------------------------------------------------------------------ *)
(** *** The example data of lines 114-126 *)

Definition qz (z : Z) : Q := inject_Z z.

Definition example_x : matrix :=
  map (map qz)
    [ [5;3;4;6;7;8;2]; [6;3;2;5;1;1;0]; [7;7;8;3;5;2;9]; [4;5;7;2;4;6;6];
      [0;1;2;4;4;5;9]; [4;2;5;6;1;3;2]; [7;4;8;1;9;5;3]; [9;7;0;3;5;6;3];
      [8;3;7;3;9;1;1]; [3;6;7;3;9;0;4] ]%Z.

Definition example_y : vector := map qz [1;5;7;3;8;2;4;6;8;4]%Z.

(** A small data set of three samples and two features. *)
Definition small_x : matrix := [[0; 0]; [2; 1]; [4; 8]].

Definition small_y : vector := [3; 1; 2].

(* ------------------------------------------------------------------ *)
(** *** Reference notions used in the statements *)

(** Column [j] of a matrix. *)
Definition column (j : nat) (x : matrix) : list Q :=
  map (fun r => nth j r 0) x.

Definition sum_list (l : list Q) : Q := fold_right Qplus 0 l.

Definition mean (l : list Q) : Q :=
  sum_list l / inject_Z (Z.of_nat (length l)).

(** Population variance ([ddof = 0]) of a list of values. *)
Definition population_variance (l : list Q) : Q :=
  mean (map (fun c => (c - mean l) * (c - mean l)) l).

(** Smallest and largest value of a row (of its head alone when there is
    nothing else). *)
Definition row_min (l : list Q) : Q :=
  match l with
  | [] => 0
  | a :: l' => fold_right Qmin a l'
  end.

Definition row_max (l : list Q) : Q :=
  match l with
  | [] => 0
  | a :: l' => fold_right Qmax a l'
  end.

(** The table with entry [[i,j]] equal to [y[indx[i,j]]]. *)
Definition gather (y : vector) (indx : list (list nat)) : list (list Q) :=
  map (map (fun j => nth j y 0)) indx.

(** Linear interpolation between the order statistics of a sorted array at
    the real-valued position [t]. *)
Definition interp (arr : list Q) (t : Q) : Q :=
  let l := Z.to_nat (Qfloor t) in
  let l' := Nat.min (l + 1) (length arr - 1) in
  nth l arr 0 + (nth l' arr 0 - nth l arr 0) * (t - inject_Z (Z.of_nat l)).

(** Two rows differ in some coordinate. *)
Definition rows_differ (r s : list Q) : Prop :=
  exists d, (d < length r)%nat /\ ~ nth d r 0 == nth d s 0.

(** [y[indx]] for a two-dimensional array of indices: the gather done in
    one indexing operation instead of the loop of lines 97-100. *)
Fixpoint np_take_rows (y : vector) (indx : list (list nat))
  : result (list (list Q)) :=
  match indx with
  | [] => Ok []
  | row :: indx' =>
      vals <- np_take y row ;;
      rest <- np_take_rows y indx' ;;
      Ok (vals :: rest)
  end.

(** The rows of the matrix handed to the nearest-neighbour search (the
    weighted one when the weighting is on) are pairwise distinct. *)
Definition weighted_rows_distinct (x : matrix) (vw : bool) : Prop :=
  forall Xw,
    check_array (feature_weighting x vw) = Ok Xw ->
    forall i j, (i < length Xw)%nat -> (j < length Xw)%nat -> i <> j ->
      rows_differ (nth i Xw []) (nth j Xw []).

(** The values of [ys] are values of dtype [dt], and the largest minus the
    smallest is one too: no subtraction of two of them wraps or
    overflows. *)
Definition row_in_range (dt : dtype) (ys : list Q) : Prop :=
  array_of dt ys /\ row_max ys - row_min ys <= dtype_max dt.

(** The inputs that the filter is meant for: an [N]-by-[S] matrix with at
    least one feature column, one output value per sample, between one and
    [N] neighbours, a probability, a positive order of the distance, and,
    when the features are weighted, no feature column of variance zero. *)
Record valid_input (x : matrix) (y : vector) (k : Z) (q : Q) (vw : bool)
       (p : Z) (N S : nat) : Prop := {
  valid_shape : shape x N S;
  valid_features : (0 < S)%nat;
  valid_outputs : length y = N;
  valid_k : (1 <= k <= Z.of_nat N)%Z;
  valid_q : 0 <= q /\ q <= 1;
  valid_p : (0 < p)%Z;
  valid_variance :
    vw = true ->
    forall j, (j < S)%nat -> ~ population_variance (column j x) == 0
}.

(* ================================================================== *)
(** * Properties *)

(** ** The error monad *)

Lemma bind_ok_inv {A B : Type} (r : result A) (f : A -> result B) (b : B) :
  bind r f = Ok b -> exists a, r = Ok a /\ f a = Ok b.
Proof.
  destruct r as [a|e]; simpl; intros H; [eauto | discriminate].
Qed.

Ltac bind_inv H :=
  let a := fresh "a" in
  let Ha := fresh "Hbind" in
  apply bind_ok_inv in H; destruct H as (a & Ha & H).

(* ------------------------------------------------------------------ *)
(** ** Sorting the values of a row *)

Section SortValues.

Lemma insert_sorted_perm (a : Q) (l : list Q) :
  Permutation (a :: l) (insert_sorted a l).
Proof.
  induction l as [|b l IH]; simpl.
  - apply Permutation_refl.
  - destruct (Qle_bool a b).
    + apply Permutation_refl.
    + eapply perm_trans; [apply perm_swap|]. now apply perm_skip.
Qed.

Lemma sort_values_perm (l : list Q) : Permutation l (sort_values l).
Proof.
  induction l as [|a l IH]; simpl.
  - apply perm_nil.
  - eapply perm_trans; [apply perm_skip, IH|]. apply insert_sorted_perm.
Qed.

Lemma sort_values_length (l : list Q) : length (sort_values l) = length l.
Proof. symmetry. apply Permutation_length, sort_values_perm. Qed.

Lemma sort_values_In (l : list Q) (a : Q) : In a (sort_values l) <-> In a l.
Proof.
  split; intros H.
  - eapply Permutation_in; [apply Permutation_sym, sort_values_perm|exact H].
  - eapply Permutation_in; [apply sort_values_perm|exact H].
Qed.

Lemma insert_sorted_sorted (a : Q) (l : list Q) :
  StronglySorted Qle l -> StronglySorted Qle (insert_sorted a l).
Proof.
  induction 1 as [|b l Hs IH Hb]; simpl.
  - repeat constructor.
  - destruct (Qle_bool a b) eqn:E.
    + apply Qle_bool_iff in E.
      constructor; [now constructor|].
      constructor; [exact E|].
      apply Forall_impl with (P := Qle b); [|exact Hb].
      intros c Hc. lra.
    + assert (b <= a) as Hba.
      { destruct (Qlt_le_dec b a) as [Hlt|Hle]; [lra|].
        apply Qle_bool_iff in Hle. congruence. }
      constructor; [exact IH|].
      apply Forall_forall. intros c Hc.
      eapply Permutation_in in Hc;
        [|apply Permutation_sym, insert_sorted_perm].
      destruct Hc as [<-|Hc]; [exact Hba|].
      rewrite Forall_forall in Hb. now apply Hb.
Qed.

Lemma sort_values_sorted (l : list Q) : StronglySorted Qle (sort_values l).
Proof.
  induction l as [|a l IH]; simpl.
  - constructor.
  - now apply insert_sorted_sorted.
Qed.

Lemma sorted_nth_le (l : list Q) :
  StronglySorted Qle l ->
  forall i j, (i <= j)%nat -> (j < length l)%nat -> nth i l 0 <= nth j l 0.
Proof.
  induction 1 as [|a l Hs IH Ha]; intros i j Hij Hj; simpl in Hj.
  - lia.
  - destruct j as [|j].
    + assert (i = 0%nat) as -> by lia. simpl. lra.
    + destruct i as [|i]; simpl.
      * rewrite Forall_forall in Ha. apply Ha, nth_In. lia.
      * apply IH; lia.
Qed.

End SortValues.

(* ------------------------------------------------------------------ *)
(** ** Minimum and maximum of a row *)

Lemma fold_min_le_init (a : Q) (l : list Q) : fold_right Qmin a l <= a.
Proof.
  induction l as [|b l IH]; simpl; [lra|].
  eapply Qle_trans; [apply Q.le_min_r|exact IH].
Qed.

Lemma fold_min_le_In (a : Q) (l : list Q) (c : Q) :
  In c l -> fold_right Qmin a l <= c.
Proof.
  induction l as [|b l IH]; simpl; [tauto|].
  intros [<-|H]; [apply Q.le_min_l|].
  eapply Qle_trans; [apply Q.le_min_r|now apply IH].
Qed.

Lemma fold_min_In (a : Q) (l : list Q) :
  exists c, In c (a :: l) /\ c == fold_right Qmin a l.
Proof.
  induction l as [|b l (c & Hc & Hcm)]; simpl.
  - exists a. split; [now left|reflexivity].
  - destruct (Q.min_spec b (fold_right Qmin a l)) as [[_ E]|[_ E]].
    + exists b. split; [simpl; tauto|now rewrite E].
    + exists c. split; [simpl in *; tauto|]. rewrite E. exact Hcm.
Qed.

Lemma fold_max_ge_init (a : Q) (l : list Q) : a <= fold_right Qmax a l.
Proof.
  induction l as [|b l IH]; simpl; [lra|].
  eapply Qle_trans; [exact IH|apply Q.le_max_r].
Qed.

Lemma fold_max_ge_In (a : Q) (l : list Q) (c : Q) :
  In c l -> c <= fold_right Qmax a l.
Proof.
  induction l as [|b l IH]; simpl; [tauto|].
  intros [<-|H]; [apply Q.le_max_l|].
  eapply Qle_trans; [now apply IH|apply Q.le_max_r].
Qed.

Lemma fold_max_In (a : Q) (l : list Q) :
  exists c, In c (a :: l) /\ c == fold_right Qmax a l.
Proof.
  induction l as [|b l (c & Hc & Hcm)]; simpl.
  - exists a. split; [now left|reflexivity].
  - destruct (Q.max_spec b (fold_right Qmax a l)) as [[_ E]|[_ E]].
    + exists c. split; [simpl in *; tauto|]. rewrite E. exact Hcm.
    + exists b. split; [simpl; tauto|now rewrite E].
Qed.

Lemma row_min_le (l : list Q) (c : Q) : In c l -> row_min l <= c.
Proof.
  destruct l as [|a l]; simpl; [tauto|].
  intros [<-|H]; [apply fold_min_le_init|now apply fold_min_le_In].
Qed.

Lemma row_max_ge (l : list Q) (c : Q) : In c l -> c <= row_max l.
Proof.
  destruct l as [|a l]; simpl; [tauto|].
  intros [<-|H]; [apply fold_max_ge_init|now apply fold_max_ge_In].
Qed.

Lemma row_min_In (l : list Q) :
  l <> [] -> exists c, In c l /\ c == row_min l.
Proof. destruct l as [|a l]; [congruence|]. intros _. apply fold_min_In. Qed.

Lemma row_max_In (l : list Q) :
  l <> [] -> exists c, In c l /\ c == row_max l.
Proof. destruct l as [|a l]; [congruence|]. intros _. apply fold_max_In. Qed.

(** The first element of the sorted row is its minimum, the last one its
    maximum. *)
Lemma sort_values_first (l : list Q) :
  l <> [] -> nth 0 (sort_values l) 0 == row_min l.
Proof.
  intros Hl.
  assert (0 < length (sort_values l))%nat as Hn.
  { rewrite sort_values_length. destruct l; [congruence|simpl; lia]. }
  apply Qle_antisym.
  - destruct (row_min_In l Hl) as (c & Hc & <-).
    apply sort_values_In in Hc.
    destruct (In_nth _ _ 0 Hc) as (j & Hj & <-).
    apply sorted_nth_le; [apply sort_values_sorted|lia|exact Hj].
  - apply row_min_le, sort_values_In, nth_In, Hn.
Qed.

Lemma sort_values_last (l : list Q) :
  l <> [] -> nth (length l - 1) (sort_values l) 0 == row_max l.
Proof.
  intros Hl.
  assert (0 < length l)%nat as Hn by (destruct l; [congruence|simpl; lia]).
  apply Qle_antisym.
  - apply row_max_ge, sort_values_In, nth_In.
    rewrite sort_values_length. lia.
  - destruct (row_max_In l Hl) as (c & Hc & <-).
    apply sort_values_In in Hc.
    destruct (In_nth _ _ 0 Hc) as (j & Hj & <-).
    rewrite sort_values_length in Hj.
    apply sorted_nth_le;
      [apply sort_values_sorted|lia|rewrite sort_values_length; lia].
Qed.

(* ------------------------------------------------------------------ *)
(** ** The quantile of a row *)

Section Quantile.

Lemma lerp_eq (a b t : Q) : lerp a b t == a + (b - a) * t.
Proof. unfold lerp. destruct (Qle_bool (1 # 2) t); ring. Qed.

Lemma inject_nat_pred (n : nat) :
  (0 < n)%nat ->
  inject_Z (Z.of_nat n) - 1 == inject_Z (Z.of_nat (n - 1)).
Proof.
  intros Hn. replace (Z.of_nat (n - 1)) with (Z.of_nat n - 1)%Z by lia.
  unfold Zminus. rewrite inject_Z_plus. simpl. ring.
Qed.

Lemma floor_nat_bounds (t : Q) :
  0 <= t ->
  inject_Z (Z.of_nat (Z.to_nat (Qfloor t))) <= t
  /\ t < inject_Z (Z.of_nat (Z.to_nat (Qfloor t))) + 1.
Proof.
  intros Ht.
  assert (0 <= Qfloor t)%Z as H0.
  { change 0%Z with (Qfloor (inject_Z 0)) at 1.
    rewrite Qfloor_Z. apply (Qfloor_resp_le 0 t) in Ht.
    change (Qfloor 0) with 0%Z in Ht. exact Ht. }
  rewrite Z2Nat.id by exact H0. split.
  - apply Qfloor_le.
  - pose proof (Qlt_floor t) as H. rewrite inject_Z_plus in H. exact H.
Qed.

Lemma floor_nat_mono (t1 t2 : Q) :
  t1 <= t2 -> (Z.to_nat (Qfloor t1) <= Z.to_nat (Qfloor t2))%nat.
Proof. intros H. apply Qfloor_resp_le in H. lia. Qed.

Lemma floor_nat_of_nat (m : nat) :
  Z.to_nat (Qfloor (inject_Z (Z.of_nat m))) = m.
Proof. rewrite Qfloor_Z. apply Nat2Z.id. Qed.

Lemma floor_nat_le (t : Q) (m : nat) :
  t <= inject_Z (Z.of_nat m) -> (Z.to_nat (Qfloor t) <= m)%nat.
Proof.
  intros H. apply floor_nat_mono in H.
  now rewrite floor_nat_of_nat in H.
Qed.

(** [quantile_linear] is the interpolation of the sorted row at the
    position [(n - 1) * q]. *)
Lemma quantile_linear_interp (q : Q) (row : list Q) :
  row <> [] -> 0 <= q -> q <= 1 ->
  exists v,
    quantile_linear q row = Fin v
    /\ v == interp (sort_values row)
                   ((inject_Z (Z.of_nat (length row)) - 1) * q).
Proof.
  intros Hrow Hq0 Hq1.
  destruct row as [|a r]; [congruence|].
  unfold quantile_linear. cbv iota.
  set (row := a :: r).
  set (arr := sort_values row).
  assert (length arr = length row) as Hlen by apply sort_values_length.
  cbv zeta. rewrite Hlen.
  set (n := length row).
  assert (0 < n)%nat as Hn by (subst n row; simpl; lia).
  set (t := (inject_Z (Z.of_nat n) - 1) * q).
  pose proof (inject_nat_pred n Hn) as Hpred.
  assert (0 <= inject_Z (Z.of_nat (n - 1))) as Hm0.
  { change 0 with (inject_Z 0). rewrite <- Zle_Qle. lia. }
  assert (0 <= t) as Ht0 by (subst t; nra).
  assert (t <= inject_Z (Z.of_nat (n - 1))) as Ht1 by (subst t; nra).
  destruct (floor_nat_bounds t Ht0) as [Hfl Hfu].
  pose proof (floor_nat_le t (n - 1) Ht1) as Hl.
  unfold get_indexes, interp. rewrite Hlen. fold n.
  destruct (Qle_bool (inject_Z (Z.of_nat n) - 1) t) eqn:Eab.
  - (* the position is the last index *)
    apply Qle_bool_iff in Eab.
    assert (t == inject_Z (Z.of_nat (n - 1))) as Et by lra.
    destruct (Qlt_le_dec t 0) as [Hneg|_]; [lra|].
    eexists. split; [reflexivity|].
    rewrite lerp_eq.
    assert (Z.to_nat (Qfloor t) = (n - 1)%nat) as El.
    { rewrite (Qfloor_comp _ _ Et). apply floor_nat_of_nat. }
    rewrite El.
    replace (Nat.min (n - 1 + 1) (n - 1)) with (n - 1)%nat by lia.
    unfold py_nth. change (-1 <? 0)%Z with true. cbv iota.
    fold n in Hlen. rewrite Hlen.
    replace (Z.to_nat (Z.of_nat n + -1)) with (n - 1)%nat by lia.
    ring.
  - (* the position lies strictly inside *)
    assert (t < inject_Z (Z.of_nat n) - 1) as Hlt.
    { destruct (Qlt_le_dec t (inject_Z (Z.of_nat n) - 1)) as [H|H];
        [exact H|]. apply Qle_bool_iff in H. congruence. }
    destruct (Qlt_le_dec t 0) as [Hneg|_]; [lra|].
    eexists. split; [reflexivity|].
    rewrite lerp_eq.
    assert (0 <= Qfloor t)%Z as Hf0.
    { apply (Qfloor_resp_le 0 t) in Ht0. exact Ht0. }
    assert (Z.to_nat (Qfloor t) + 1 <= n - 1)%nat as Hl1.
    { assert (inject_Z (Z.of_nat (Z.to_nat (Qfloor t)))
              < inject_Z (Z.of_nat (n - 1))) as H by lra.
      rewrite <- Zlt_Qlt in H. lia. }
    replace (Nat.min (Z.to_nat (Qfloor t) + 1) (n - 1))
      with (Z.to_nat (Qfloor t) + 1)%nat by lia.
    unfold py_nth.
    destruct (Qfloor t <? 0)%Z eqn:E1; [apply Z.ltb_lt in E1; lia|].
    destruct (Qfloor t + 1 <? 0)%Z eqn:E2; [apply Z.ltb_lt in E2; lia|].
    replace (Z.to_nat (Qfloor t + 1)) with (Z.to_nat (Qfloor t) + 1)%nat
      by lia.
    rewrite (Z2Nat.id _ Hf0). ring.
Qed.

Variable arr : list Q.
Hypothesis arr_sorted : StronglySorted Qle arr.

(** The interpolated value lies between the two order statistics around
    the position. *)
Lemma interp_between (t : Q) :
  0 <= t -> t <= inject_Z (Z.of_nat (length arr - 1)) ->
  (0 < length arr)%nat ->
  let l := Z.to_nat (Qfloor t) in
  let l' := Nat.min (l + 1) (length arr - 1) in
  (l <= length arr - 1)%nat
  /\ nth l arr 0 <= interp arr t
  /\ interp arr t <= nth l' arr 0.
Proof.
  intros Ht0 Ht1 Hn l l'.
  destruct (floor_nat_bounds t Ht0) as [Hfl Hfu]. fold l in Hfl, Hfu.
  pose proof (floor_nat_le t _ Ht1) as Hl. fold l in Hl.
  split; [exact Hl|].
  assert (nth l arr 0 <= nth l' arr 0) as Hs.
  { apply sorted_nth_le; [exact arr_sorted|subst l'; lia|subst l'; lia]. }
  unfold interp. fold l. fold l'.
  set (a := nth l arr 0) in *. set (b := nth l' arr 0) in *.
  set (g := t - inject_Z (Z.of_nat l)).
  assert (0 <= g) by (subst g; lra).
  assert (g <= 1) by (subst g; lra).
  split; nra.
Qed.


End Quantile.

(* ------------------------------------------------------------------ *)
(** ** The nearest-neighbour search *)

Section Argsort.

Variable key : nat -> Q.

Lemma insert_by_perm (i : nat) (l : list nat) :
  Permutation (i :: l) (insert_by key i l).
Proof.
  induction l as [|j l IH]; simpl.
  - apply Permutation_refl.
  - destruct (Qle_bool (key i) (key j)).
    + apply Permutation_refl.
    + eapply perm_trans; [apply perm_swap|]. now apply perm_skip.
Qed.

Lemma argsort_perm (n : nat) : Permutation (seq 0 n) (argsort key n).
Proof.
  unfold argsort. generalize (seq 0 n). intros l.
  induction l as [|i l IH]; simpl.
  - apply perm_nil.
  - eapply perm_trans; [apply perm_skip, IH|]. apply insert_by_perm.
Qed.

Lemma argsort_length (n : nat) : length (argsort key n) = n.
Proof.
  rewrite <- (Permutation_length (argsort_perm n)). apply length_seq.
Qed.

Lemma argsort_In (n j : nat) : In j (argsort key n) <-> (j < n)%nat.
Proof.
  split; intros H.
  - eapply Permutation_in in H; [|apply Permutation_sym, argsort_perm].
    apply in_seq in H. lia.
  - eapply Permutation_in; [apply argsort_perm|]. apply in_seq. lia.
Qed.

Lemma insert_by_sorted (i : nat) (l : list nat) :
  StronglySorted (key_le key) l -> StronglySorted (key_le key) (insert_by key i l).
Proof.
  induction 1 as [|j l Hs IH Hj]; simpl.
  - repeat constructor.
  - destruct (Qle_bool (key i) (key j)) eqn:E.
    + apply Qle_bool_iff in E.
      constructor; [now constructor|].
      constructor; [exact E|].
      apply Forall_impl with (P := key_le key j); [|exact Hj].
      unfold key_le. intros c Hc. lra.
    + assert (key j <= key i) as Hji.
      { destruct (Qlt_le_dec (key j) (key i)) as [Hlt|Hle]; [lra|].
        apply Qle_bool_iff in Hle. congruence. }
      constructor; [exact IH|].
      apply Forall_forall. intros c Hc.
      eapply Permutation_in in Hc;
        [|apply Permutation_sym, insert_by_perm].
      destruct Hc as [<-|Hc]; [exact Hji|].
      rewrite Forall_forall in Hj. now apply Hj.
Qed.

Lemma argsort_sorted (n : nat) : StronglySorted (key_le key) (argsort key n).
Proof.
  unfold argsort. generalize (seq 0 n). intros l.
  induction l as [|i l IH]; simpl.
  - constructor.
  - now apply insert_by_sorted.
Qed.

(** The first index returned has the smallest key of all. *)
Lemma argsort_head_min (n : nat) :
  (0 < n)%nat ->
  exists h t,
    argsort key n = h :: t /\ (h < n)%nat
    /\ forall j, (j < n)%nat -> key h <= key j.
Proof.
  intros Hn.
  pose proof (argsort_length n) as Hlen.
  pose proof (argsort_sorted n) as Hs.
  pose proof (argsort_In n) as Hin.
  destruct (argsort key n) as [|h t]; [simpl in Hlen; lia|].
  exists h, t. split; [reflexivity|].
  split; [apply Hin; now left|].
  intros j Hj. apply Hin in Hj.
  inversion Hs as [|? ? _ Hall]; subst.
  destruct Hj as [<-|Hj]; [lra|].
  rewrite Forall_forall in Hall. now apply Hall.
Qed.

End Argsort.

Section CheckArray.

Lemma all_finite_Some (r : list num) (qs : list Q) :
  all_finite r = Some qs -> r = map Fin qs.
Proof.
  revert qs. induction r as [|a r IH]; simpl; intros qs H.
  - now inversion H.
  - destruct a as [q| | |]; simpl in H; try discriminate.
    destruct (all_finite r) as [qs'|]; [|discriminate].
    inversion H; subst. simpl. now rewrite (IH qs').
Qed.

Lemma all_finite_map_Fin (qs : list Q) : all_finite (map Fin qs) = Some qs.
Proof. induction qs as [|q qs IH]; simpl; [|rewrite IH]; reflexivity. Qed.

Lemma all_finite_rows_Some (x : list (list num)) (m : matrix) :
  all_finite_rows x = Some m -> x = map (map Fin) m.
Proof.
  revert m. induction x as [|r x IH]; simpl; intros m H.
  - now inversion H.
  - destruct (all_finite r) as [q|] eqn:E; [|discriminate].
    destruct (all_finite_rows x) as [qs|]; [|discriminate].
    inversion H; subst. simpl.
    now rewrite (all_finite_Some _ _ E), (IH qs).
Qed.

Lemma all_finite_rows_map_Fin (m : matrix) :
  all_finite_rows (map (map Fin) m) = Some m.
Proof.
  induction m as [|r m IH]; simpl; [reflexivity|].
  now rewrite all_finite_map_Fin, IH.
Qed.

Lemma check_array_Ok (x : list (list num)) (m : matrix) :
  check_array x = Ok m ->
  x = map (map Fin) m /\ (0 < length m)%nat /\ (0 < ncols m)%nat.
Proof.
  unfold check_array. destruct x as [|r x]; [discriminate|].
  destruct (Nat.eqb (length r) 0) eqn:E; [discriminate|].
  destruct (all_finite_rows (r :: x)) as [m'|] eqn:F; [|discriminate].
  intros H. inversion H; subst m'.
  apply all_finite_rows_Some in F.
  split; [exact F|].
  destruct m as [|r' m]; [discriminate|].
  simpl in F. inversion F; subst.
  apply Nat.eqb_neq in E. rewrite length_map in E. simpl. lia.
Qed.

Lemma check_array_map_Fin (m : matrix) :
  (0 < length m)%nat -> (0 < ncols m)%nat ->
  check_array (map (map Fin) m) = Ok m.
Proof.
  intros Hn Hc. unfold check_array.
  destruct m as [|r m]; [simpl in Hn; lia|].
  cbn [map]. rewrite length_map.
  simpl in Hc. destruct (Nat.eqb_spec (length r) 0) as [E|_]; [lia|].
  change (map Fin r :: map (map Fin) m) with (map (map Fin) (r :: m)).
  now rewrite all_finite_rows_map_Fin.
Qed.

(** Every failure of [check_array] is a [ValueError]. *)
Lemma check_array_Raise (x : list (list num)) (e : exn) :
  check_array x = Raise e -> e = ValueError.
Proof.
  unfold check_array. destruct x as [|r x]; [congruence|].
  destruct (Nat.eqb (length r) 0); [congruence|].
  destruct (all_finite_rows (r :: x)); congruence.
Qed.


End CheckArray.

Lemma In_firstn {A : Type} (n : nat) (l : list A) (a : A) :
  In a (firstn n l) -> In a l.
Proof.
  revert l. induction n as [|n IH]; intros [|b l]; simpl; try tauto.
  intros [H|H]; [now left|right; now apply IH].
Qed.

Section Kneighbors.

(** What a successful search returns: one row of [k] indices per sample,
    each index that of a sample. *)
Lemma nn_fit_Ok (k p : Z) (x : list (list num)) (m : NearestNeighbors) :
  nn_fit k p x = Ok m ->
  (0 < k)%Z /\ (0 < p)%Z
  /\ nn_n_neighbors m = k /\ nn_p m = p
  /\ check_array x = Ok (nn_fit_X m).
Proof.
  unfold nn_fit.
  destruct (Z.leb_spec k 0) as [|Hk]; [discriminate|].
  destruct (Z.leb_spec p 0) as [|Hp]; [discriminate|].
  intros H. bind_inv H. inversion H; subst m; simpl. auto.
Qed.

Lemma nn_fit_Raise (k p : Z) (x : list (list num)) (e : exn) :
  nn_fit k p x = Raise e -> e = ValueError.
Proof.
  unfold nn_fit.
  destruct (k <=? 0)%Z; [congruence|].
  destruct (p <=? 0)%Z; [congruence|].
  destruct (check_array x) as [X|e'] eqn:E; simpl; [discriminate|].
  apply check_array_Raise in E. congruence.
Qed.

Lemma kneighbors_Raise (m : NearestNeighbors) (x : list (list num)) (e : exn) :
  kneighbors m x = Raise e -> e = ValueError.
Proof.
  unfold kneighbors.
  destruct (check_array x) as [X|e'] eqn:E; simpl.
  - destruct (_ <? _)%Z; congruence.
  - apply check_array_Raise in E. congruence.
Qed.

Lemma kneighbors_row_length (m : NearestNeighbors) (query : list Q) :
  (nn_n_neighbors m <= Z.of_nat (length (nn_fit_X m)))%Z ->
  length (kneighbors_row m query) = Z.to_nat (nn_n_neighbors m).
Proof.
  intros H. unfold kneighbors_row.
  rewrite length_firstn, argsort_length. lia.
Qed.

Lemma kneighbors_row_lt (m : NearestNeighbors) (query : list Q) (j : nat) :
  In j (kneighbors_row m query) -> (j < length (nn_fit_X m))%nat.
Proof.
  unfold kneighbors_row. intros H.
  apply In_firstn in H. now apply argsort_In in H.
Qed.

End Kneighbors.

(** A successful fit followed by a successful query of the same matrix. *)
Lemma neighbor_search_Ok (k p : Z) (xw : list (list num))
      (m : NearestNeighbors) (indx : list (list nat)) :
  nn_fit k p xw = Ok m -> kneighbors m xw = Ok indx ->
  xw = map (map Fin) (nn_fit_X m)
  /\ (0 < k <= Z.of_nat (length xw))%Z /\ (0 < p)%Z
  /\ nn_n_neighbors m = k /\ nn_p m = p
  /\ indx = map (kneighbors_row m) (nn_fit_X m)
  /\ length indx = length xw
  /\ Forall (fun r => length r = Z.to_nat k
                      /\ Forall (fun j => (j < length xw)%nat) r) indx.
Proof.
  intros Hfit Hq.
  apply nn_fit_Ok in Hfit. destruct Hfit as (Hk & Hp & Ek & Ep & Hc).
  unfold kneighbors in Hq. rewrite Hc in Hq. simpl in Hq.
  destruct (Z.ltb_spec (Z.of_nat (length (nn_fit_X m))) (nn_n_neighbors m))
    as [|Hle]; [discriminate|].
  inversion Hq as [Hindx]. clear Hq.
  apply check_array_Ok in Hc. destruct Hc as (Hx & _ & _).
  assert (length xw = length (nn_fit_X m)) as Hlen.
  { rewrite Hx at 1. apply length_map. }
  rewrite Hlen.
  repeat split; try assumption; try lia.
  - now rewrite length_map.
  - apply Forall_forall. intros r Hr.
    apply in_map_iff in Hr. destruct Hr as (query & <- & _). split.
    + rewrite kneighbors_row_length; [now rewrite Ek|exact Hle].
    + apply Forall_forall. intros j Hj.
      now apply kneighbors_row_lt in Hj.
Qed.

(* ------------------------------------------------------------------ *)
(** ** Gathering the neighbours' output values *)

Section Gather.

Variable y : vector.

Lemma np_take_Ok (idx : list nat) (ys : list Q) :
  np_take y idx = Ok ys ->
  ys = map (fun j => nth j y 0) idx /\ Forall (fun j => (j < length y)%nat) idx.
Proof.
  revert ys. induction idx as [|j idx IH]; simpl; intros ys H.
  - inversion H. split; [reflexivity|constructor].
  - destruct (nth_error y j) as [v|] eqn:E; [|discriminate].
    bind_inv H. inversion H; subst ys.
    destruct (IH _ Hbind) as (-> & Hall).
    split.
    + simpl. f_equal. symmetry.
      now apply nth_error_nth.
    + constructor; [|exact Hall].
      apply nth_error_Some. congruence.
Qed.

Lemma np_take_in_range (idx : list nat) :
  Forall (fun j => (j < length y)%nat) idx -> np_take y idx = Ok (map (fun j => nth j y 0) idx).
Proof.
  induction 1 as [|j idx Hj Hall IH]; simpl; [reflexivity|].
  destruct (nth_error y j) as [v|] eqn:E.
  - rewrite IH. simpl.
    now rewrite (nth_error_nth _ _ 0 E).
  - apply nth_error_None in E. lia.
Qed.

Lemma np_take_Raise (idx : list nat) (e : exn) :
  np_take y idx = Raise e -> e = IndexError.
Proof.
  induction idx as [|j idx IH]; simpl; [discriminate|].
  destruct (nth_error y j); [|congruence].
  destruct (np_take y idx) as [vs|e']; simpl; [discriminate|].
  intros H. inversion H; subst. now apply IH.
Qed.

Lemma np_take_out_of_range (idx : list nat) (j : nat) :
  In j idx -> (length y <= j)%nat -> np_take y idx = Raise IndexError.
Proof.
  intros Hin Hj.
  destruct (np_take y idx) as [ys|e] eqn:E.
  - apply np_take_Ok in E. destruct E as (_ & Hall).
    rewrite Forall_forall in Hall. apply Hall in Hin. lia.
  - now rewrite (np_take_Raise _ _ E).
Qed.

Variable indx : list (list nat).

Lemma index_row_Ok (i : nat) (row : list nat) :
  index_row indx i = Ok row ->
  (i < length indx)%nat /\ nth i indx [] = row.
Proof.
  unfold index_row. destruct (nth_error indx i) as [r|] eqn:E;
    [|discriminate].
  intros H. inversion H; subst. split.
  - apply nth_error_Some. congruence.
  - now apply nth_error_nth.
Qed.

Lemma index_row_in_range (i : nat) :
  (i < length indx)%nat -> index_row indx i = Ok (nth i indx []).
Proof.
  intros Hi. unfold index_row.
  destruct (nth_error indx i) as [r|] eqn:E.
  - now rewrite (nth_error_nth _ _ [] E).
  - apply nth_error_None in E. lia.
Qed.

Lemma np_vstack_Ok (a : ndarray) (v : list Q) (a' : ndarray) :
  np_vstack a (Arr1 v) = Ok a' -> a' = Arr2 (atleast_2d a ++ [v]).
Proof.
  unfold np_vstack. destruct (Nat.eqb _ _); [|discriminate].
  intros H. now inversion H.
Qed.

Lemma np_vstack_same_cols (a : ndarray) (v : list Q) :
  ncols (atleast_2d a) = length v ->
  np_vstack a (Arr1 v) = Ok (Arr2 (atleast_2d a ++ [v])).
Proof.
  intros H. unfold np_vstack. simpl atleast_2d. simpl (ncols [v]).
  now rewrite H, Nat.eqb_refl.
Qed.

(** The loop, when it completes, has appended the gathered row of every
    index it went through. *)
Lemma stack_rows_Ok (todo : list nat) (acc a : ndarray) :
  stack_rows y indx todo acc = Ok a ->
  a = match todo with
      | [] => acc
      | _ :: _ =>
          Arr2 (atleast_2d acc ++ map (fun i => map (fun j => nth j y 0) (nth i indx []))
                      todo)
      end
  /\ Forall (fun i => (i < length indx)%nat
                      /\ Forall (fun j => (j < length y)%nat)
                                (nth i indx [])) todo.
Proof.
  revert acc. induction todo as [|i todo IH]; simpl; intros acc H.
  - inversion H. split; [reflexivity|constructor].
  - bind_inv H. rename a0 into row, Hbind into Hrow.
    bind_inv H. rename a0 into vals, Hbind into Hvals.
    bind_inv H. rename a0 into acc', Hbind into Hst.
    apply index_row_Ok in Hrow. destruct Hrow as (Hi & <-).
    apply np_take_Ok in Hvals. destruct Hvals as (-> & Hin).
    apply np_vstack_Ok in Hst. subst acc'.
    apply IH in H. destruct H as (-> & Hall).
    split; [|constructor; auto].
    destruct todo as [|i' todo]; [reflexivity|].
    simpl atleast_2d. now rewrite <- app_assoc.
Qed.

Variable k : nat.
Hypothesis rows_length : Forall (fun r => length r = k) indx.

Lemma nth_indx_length (i : nat) :
  (i < length indx)%nat -> length (nth i indx []) = k.
Proof.
  intros Hi. rewrite Forall_forall in rows_length.
  apply rows_length, nth_In, Hi.
Qed.

Lemma ncols_app_one (m : list (list Q)) (v : list Q) :
  m <> [] -> ncols (m ++ [v]) = ncols m.
Proof. destruct m; [congruence|reflexivity]. Qed.

(** The loop fails with an [IndexError] or not at all. *)
Lemma stack_rows_result (todo : list nat) (acc : ndarray) :
  Forall (fun i => (i < length indx)%nat) todo ->
  atleast_2d acc <> [] -> ncols (atleast_2d acc) = k ->
  (exists a, stack_rows y indx todo acc = Ok a)
  \/ stack_rows y indx todo acc = Raise IndexError.
Proof.
  intros Htodo. revert acc.
  induction Htodo as [|i todo Hi Htodo IH]; simpl; intros acc Hne Hc.
  - left. eauto.
  - rewrite (index_row_in_range i Hi). simpl.
    destruct (np_take y (nth i indx [])) as [vals|e] eqn:E; simpl.
    + apply np_take_Ok in E. destruct E as (-> & _).
      rewrite np_vstack_same_cols
        by (rewrite length_map, Hc; symmetry;
            now apply nth_indx_length).
      simpl.
      apply IH; simpl.
      * destruct (atleast_2d acc); [congruence|discriminate].
      * now rewrite ncols_app_one.
    + right. now rewrite (np_take_Raise _ _ E).
Qed.

Lemma stack_rows_in_range (todo : list nat) (acc : ndarray) :
  Forall (fun i => (i < length indx)%nat
                   /\ Forall (fun j => (j < length y)%nat) (nth i indx []))
         todo ->
  atleast_2d acc <> [] -> ncols (atleast_2d acc) = k ->
  exists a, stack_rows y indx todo acc = Ok a.
Proof.
  intros Htodo. revert acc.
  induction Htodo as [|i todo [Hi Hin] Htodo IH]; simpl; intros acc Hne Hc.
  - eauto.
  - rewrite (index_row_in_range i Hi). simpl.
    rewrite (np_take_in_range _ Hin). simpl.
    rewrite np_vstack_same_cols
      by (rewrite length_map, Hc; symmetry;
          now apply nth_indx_length).
    simpl.
    apply IH; simpl.
    + destruct (atleast_2d acc); [congruence|discriminate].
    + now rewrite ncols_app_one.
Qed.

Lemma stack_rows_out_of_range (todo : list nat) (acc : ndarray) (i j : nat) :
  Forall (fun i => (i < length indx)%nat) todo ->
  atleast_2d acc <> [] -> ncols (atleast_2d acc) = k ->
  In i todo -> In j (nth i indx []) -> (length y <= j)%nat ->
  stack_rows y indx todo acc = Raise IndexError.
Proof.
  intros Htodo Hne Hc Hi Hj Hout.
  destruct (stack_rows_result todo acc Htodo Hne Hc) as [(a & Ha)|Hr];
    [|exact Hr].
  apply stack_rows_Ok in Ha. destruct Ha as (_ & Hall).
  rewrite Forall_forall in Hall. destruct (Hall i Hi) as (_ & Hrow).
  rewrite Forall_forall in Hrow. apply Hrow in Hj. lia.
Qed.

End Gather.

Lemma map_nth_seq {A : Type} (l : list A) (d : A) :
  map (fun i => nth i l d) (seq 0 (length l)) = l.
Proof.
  induction l as [|a l IH]; simpl; [reflexivity|].
  f_equal. rewrite <- seq_shift, map_map. exact IH.
Qed.

Lemma seq_from_one (n : nat) : (0 < n)%nat -> seq 0 n = 0%nat :: seq 1 (n - 1).
Proof. destruct n; [lia|]. intros _. simpl. now rewrite Nat.sub_0_r. Qed.

Section NeighborOutputs.

Variables (y : vector) (indx : list (list nat)).

(** What the aggregation has built when it completes: a vector when the
    table has a single row, the whole table of gathered values when it
    has more. *)
Lemma neighbor_outputs_Ok (a : ndarray) :
  neighbor_outputs y indx (length indx) = Ok a ->
  (0 < length indx)%nat
  /\ Forall (Forall (fun j => (j < length y)%nat)) indx
  /\ a = if (length indx <=? 1)%nat
         then Arr1 (map (fun j => nth j y 0) (nth 0 indx []))
         else Arr2 (gather y indx).
Proof.
  unfold neighbor_outputs. intros H.
  bind_inv H. rename a0 into row0, Hbind into Hrow.
  bind_inv H. rename a0 into vals, Hbind into Hvals.
  apply index_row_Ok in Hrow. destruct Hrow as (Hn & <-).
  apply np_take_Ok in Hvals. destruct Hvals as (-> & Hin0).
  apply stack_rows_Ok in H. destruct H as (-> & Hall).
  split; [exact Hn|]. split.
  - apply Forall_forall. intros r Hr.
    destruct (In_nth _ _ [] Hr) as (i & Hi & <-).
    destruct i as [|i]; [exact Hin0|].
    rewrite Forall_forall in Hall.
    apply (Hall (S i)). apply in_seq. lia.
  - destruct (Nat.leb_spec (length indx) 1) as [Hle|Hgt].
    + replace (length indx - 1)%nat with 0%nat by lia. reflexivity.
    + destruct (seq 1 (length indx - 1)) as [|i' t] eqn:Es.
      { apply (f_equal (@length nat)) in Es.
        rewrite length_seq in Es. simpl in Es. lia. }
      rewrite <- Es. simpl atleast_2d. f_equal.
      unfold gather.
      rewrite <- (map_nth_seq indx []) at 3.
      rewrite map_map, (seq_from_one _ Hn). reflexivity.
Qed.

Variable k : nat.
Hypothesis rows_length : Forall (fun r => length r = k) indx.

(** The aggregation completes when every index of the table is an index
    of [y]. *)
Lemma neighbor_outputs_in_range :
  (0 < length indx)%nat ->
  Forall (Forall (fun j => (j < length y)%nat)) indx ->
  exists a, neighbor_outputs y indx (length indx) = Ok a.
Proof.
  intros Hn Hall. unfold neighbor_outputs.
  rewrite (index_row_in_range indx 0 Hn). simpl.
  assert (forall i, (i < length indx)%nat ->
                    Forall (fun j => (j < length y)%nat) (nth i indx []))
    as Hrow.
  { intros i Hi. rewrite Forall_forall in Hall. apply Hall, nth_In, Hi. }
  rewrite (np_take_in_range y _ (Hrow 0%nat Hn)). simpl.
  apply (stack_rows_in_range y indx k rows_length).
  - apply Forall_forall. intros i Hi. apply in_seq in Hi.
    split; [lia|apply Hrow; lia].
  - discriminate.
  - simpl. rewrite length_map. now apply nth_indx_length.
Qed.

(** It fails with an [IndexError] when some index of the table is not. *)
Lemma neighbor_outputs_out_of_range (i j : nat) :
  (i < length indx)%nat -> In j (nth i indx []) -> (length y <= j)%nat ->
  neighbor_outputs y indx (length indx) = Raise IndexError.
Proof.
  intros Hi Hj Hout. unfold neighbor_outputs.
  assert (0 < length indx)%nat as Hn by lia.
  rewrite (index_row_in_range indx 0 Hn). simpl.
  destruct (np_take y (nth 0 indx [])) as [vals|e] eqn:E; simpl.
  - apply np_take_Ok in E. destruct E as (-> & Hin0).
    destruct i as [|i].
    { rewrite Forall_forall in Hin0. apply Hin0 in Hj. lia. }
    apply (stack_rows_out_of_range y indx k rows_length _ _ (S i) j).
    + apply Forall_forall. intros i' Hi'. apply in_seq in Hi'. lia.
    + discriminate.
    + simpl. rewrite length_map. now apply nth_indx_length.
    + apply in_seq. lia.
    + exact Hj.
    + exact Hout.
  - now rewrite (np_take_Raise _ _ _ E).
Qed.

End NeighborOutputs.

(* ------------------------------------------------------------------ *)
(** ** The feature weighting *)

Section ZipWith.

Context {A B C : Type} (f : A -> B -> C).

Lemma zip_with_length (l : list A) (m : list B) :
  length (zip_with f l m) = Nat.min (length l) (length m).
Proof.
  revert m. induction l as [|a l IH]; intros [|b m]; simpl; auto.
Qed.

Lemma zip_with_nth (l : list A) (m : list B) (j : nat) (da : A) (db : B)
      (dc : C) :
  (j < length l)%nat -> (j < length m)%nat ->
  nth j (zip_with f l m) dc = f (nth j l da) (nth j m db).
Proof.
  revert m j. induction l as [|a l IH]; intros [|b m] [|j]; simpl;
    intros H1 H2; try lia; [reflexivity|].
  apply IH; lia.
Qed.

End ZipWith.




Lemma sum_list_map_ext {A : Type} (f g : A -> Q) (l : list A) :
  (forall a, In a l -> f a == g a) ->
  sum_list (map f l) == sum_list (map g l).
Proof.
  induction l as [|a l IH]; simpl; intros H; [reflexivity|].
  rewrite (H a) by now left. rewrite IH; [reflexivity|].
  intros b Hb. apply H. now right.
Qed.

Section VarianceAxis0.

Variables (S : nat) (j : nat).
Hypothesis j_lt_S : (j < S)%nat.

Lemma fold_sum_rows (rs : matrix) (r : list Q) :
  length r = S -> Forall (fun r => length r = S) rs ->
  length (fold_left (zip_with Qplus) rs r) = S
  /\ nth j (fold_left (zip_with Qplus) rs r) 0
     == nth j r 0 + sum_list (column j rs).
Proof.
  intros Hr Hrs. revert r Hr.
  induction Hrs as [|r1 rs Hr1 Hrs IH]; simpl; intros r Hr.
  - split; [exact Hr|ring].
  - assert (length (zip_with Qplus r r1) = S) as Hz.
    { rewrite zip_with_length. lia. }
    destruct (IH _ Hz) as (Hlen & Hnth).
    split; [exact Hlen|].
    rewrite Hnth, (zip_with_nth Qplus r r1 j 0 0 0) by lia. ring.
Qed.

Variables (x : matrix) (N : nat).
Hypothesis x_shape : shape x N S.
Hypothesis N_pos : (0 < N)%nat.

Lemma np_sum_axis0_spec :
  length (np_sum_axis0 x) = S
  /\ nth j (np_sum_axis0 x) 0 == sum_list (column j x).
Proof.
  destruct x_shape as (Hlen & Hrows).
  destruct x as [|r rs]; [simpl in Hlen; lia|].
  apply Forall_cons_iff in Hrows. destruct Hrows as (Hr & Hrs).
  simpl. destruct (fold_sum_rows rs r Hr Hrs) as (Hl & Hn).
  split; [exact Hl|]. rewrite Hn. ring.
Qed.

Lemma np_mean_axis0_spec :
  length (np_mean_axis0 x) = S
  /\ nth j (np_mean_axis0 x) 0 == mean (column j x).
Proof.
  destruct np_sum_axis0_spec as (Hl & Hn).
  unfold np_mean_axis0. split; [now rewrite length_map|].
  set (f := fun s : Q => s / inject_Z (Z.of_nat (length x))).
  rewrite (nth_indep _ 0 (f 0)) by (rewrite length_map; lia).
  rewrite map_nth. unfold f, mean, column.
  rewrite length_map, Hn. reflexivity.
Qed.

End VarianceAxis0.

Lemma shape_map {A B : Type} (f : list A -> list B) (x : list (list A))
      (N S : nat) :
  (forall r, length r = S -> length (f r) = S) ->
  shape x N S -> shape (map f x) N S.
Proof.
  intros Hf (Hlen & Hrows). split; [now rewrite length_map|].
  apply Forall_forall. intros r Hr.
  apply in_map_iff in Hr. destruct Hr as (r0 & <- & Hr0).
  rewrite Forall_forall in Hrows. auto.
Qed.

(** Along axis 0, [np.var] computes the population variance of every
    column. *)
Lemma np_var_axis0_spec (x : matrix) (N S j : nat) :
  shape x N S -> (0 < N)%nat -> (j < S)%nat ->
  length (np_var_axis0 x) = S
  /\ nth j (np_var_axis0 x) 0 == population_variance (column j x).
Proof.
  intros Hx HN Hj. unfold np_var_axis0.
  set (arrmean := np_mean_axis0 x).
  set (dev := map (fun r => zip_with Qminus r arrmean) x).
  set (sq := map (map (fun d : Q => d * d)) dev).
  assert (forall j', (j' < S)%nat ->
            length arrmean = S
            /\ nth j' arrmean 0 == mean (column j' x)) as Hmean.
  { intros j' Hj'. apply (np_mean_axis0_spec S j' Hj' x N Hx HN). }
  destruct (Hmean j Hj) as (Hml & Hmj).
  assert (shape sq N S) as Hsq.
  { subst sq dev. rewrite map_map. apply shape_map; [|exact Hx].
    intros r Hr. rewrite length_map, zip_with_length. lia. }
  destruct (np_mean_axis0_spec S j Hj sq N Hsq HN) as (Hl & Hn).
  split; [exact Hl|].
  rewrite Hn. unfold population_variance, mean.
  assert (length (column j sq) = length (column j x)) as El.
  { unfold column, sq, dev. now rewrite !length_map. }
  rewrite El, length_map.
  apply Qmult_comp; [|reflexivity].
  unfold column, sq, dev. rewrite !map_map.
  apply sum_list_map_ext. intros r Hr.
  destruct Hx as (_ & Hrows). rewrite Forall_forall in Hrows.
  pose proof (Hrows r Hr) as Hrl.
  set (sqf := fun d : Q => d * d).
  rewrite (nth_indep _ 0 (sqf 0))
    by (rewrite length_map, zip_with_length; lia).
  rewrite map_nth. unfold sqf.
  rewrite (zip_with_nth Qminus r arrmean j 0 0 0) by lia.
  rewrite Hmj. reflexivity.
Qed.

Lemma feature_weighting_length (x : matrix) (vw : bool) :
  length (feature_weighting x vw) = length x.
Proof.
  unfold feature_weighting, weight_rows. destruct vw; apply length_map.
Qed.

Lemma feature_weighting_shape (x : matrix) (vw : bool) (N S : nat) :
  shape x N S -> shape (feature_weighting x vw) N S.
Proof.
  intros Hx. unfold feature_weighting, weight_rows. destruct vw.
  - destruct (Nat.eq_dec N 0) as [->|HN].
    + destruct Hx as (Hlen & _). apply length_zero_iff_nil in Hlen.
      subst x. split; [reflexivity|constructor].
    + destruct (Nat.eq_dec S 0) as [->|HS].
      * apply shape_map; [|exact Hx].
        intros r Hr. rewrite zip_with_length, !length_map. lia.
      * assert (length (np_var_axis0 x) = S) as Hv.
        { apply (np_var_axis0_spec x N S 0); [exact Hx|lia|lia]. }
        apply shape_map; [|exact Hx].
        intros r Hr. rewrite zip_with_length, !length_map. lia.
  - apply shape_map; [|exact Hx]. intros r Hr. now rewrite length_map.
Qed.


(* ------------------------------------------------------------------ *)
(** ** The filter as a whole *)

Lemma nnqf_filter_unfold (x : matrix) (y : vector) (k : Z) (q : Q)
      (vw : bool) (p : Z) :
  nnqf_filter x y k q vw p
  = (indx <- neighbor_table x k vw p ;;
     y_neighbors <- neighbor_outputs y indx (length x) ;;
     np_quantile_axis1 y_neighbors q).
Proof.
  unfold nnqf_filter, neighbor_table, np_size0.
  rewrite feature_weighting_length.
  destruct (nn_fit k p (feature_weighting x vw)); reflexivity.
Qed.

Lemma neighbor_table_Ok (x : matrix) (k : Z) (vw : bool) (p : Z)
      (indx : list (list nat)) :
  neighbor_table x k vw p = Ok indx ->
  (0 < k <= Z.of_nat (length x))%Z /\ (0 < p)%Z
  /\ length indx = length x
  /\ Forall (fun r => length r = Z.to_nat k
                      /\ Forall (fun j => (j < length x)%nat) r) indx.
Proof.
  unfold neighbor_table. intros H. bind_inv H.
  destruct (neighbor_search_Ok _ _ _ _ _ Hbind H)
    as (_ & Hk & Hp & _ & _ & _ & Hlen & Hrows).
  rewrite feature_weighting_length in *. auto.
Qed.

Lemma neighbor_table_Raise (x : matrix) (k : Z) (vw : bool) (p : Z) (e : exn) :
  neighbor_table x k vw p = Raise e -> e = ValueError.
Proof.
  unfold neighbor_table.
  destruct (nn_fit k p (feature_weighting x vw)) as [m|e'] eqn:E; simpl.
  - apply kneighbors_Raise.
  - apply nn_fit_Raise in E. congruence.
Qed.

Lemma Forall_rows_length (indx : list (list nat)) (k n : nat) :
  Forall (fun r => length r = k /\ Forall (fun j => (j < n)%nat) r) indx ->
  Forall (fun r => length r = k) indx
  /\ Forall (Forall (fun j => (j < n)%nat)) indx.
Proof.
  intros H. split; (eapply Forall_impl; [|exact H]); simpl; tauto.
Qed.

Lemma np_quantile_axis1_Ok (a : ndarray) (q : Q) (out : list num) :
  np_quantile_axis1 a q = Ok out ->
  0 <= q /\ q <= 1
  /\ exists m, a = Arr2 m /\ out = map (quantile_linear q) m.
Proof.
  unfold np_quantile_axis1, quantile_is_valid.
  destruct (Qle_bool 0 q) eqn:E0; [|discriminate].
  destruct (Qle_bool q 1) eqn:E1; [|discriminate].
  simpl. apply Qle_bool_iff in E0, E1.
  destruct a as [v|m]; [discriminate|].
  intros H. inversion H. eauto.
Qed.

Lemma np_quantile_axis1_valid (m : list (list Q)) (q : Q) :
  0 <= q -> q <= 1 ->
  np_quantile_axis1 (Arr2 m) q = Ok (map (quantile_linear q) m).
Proof.
  intros H0 H1. unfold np_quantile_axis1, quantile_is_valid.
  apply Qle_bool_iff in H0, H1. now rewrite H0, H1.
Qed.

(** What is known when the filter returns. *)
Lemma nnqf_filter_Ok (x : matrix) (y : vector) (k : Z) (q : Q)
      (vw : bool) (p : Z) (out : list num) :
  nnqf_filter x y k q vw p = Ok out ->
  exists indx,
    neighbor_table x k vw p = Ok indx
    /\ length indx = length x /\ (2 <= length x)%nat
    /\ (0 < Z.to_nat k)%nat
    /\ Forall (fun r => length r = Z.to_nat k
                        /\ Forall (fun j => (j < length y)%nat) r) indx
    /\ 0 <= q /\ q <= 1
    /\ out = map (quantile_linear q) (gather y indx).
Proof.
  rewrite nnqf_filter_unfold. intros H.
  bind_inv H. rename a into indx, Hbind into Htab.
  bind_inv H. rename a into arr, Hbind into Hagg.
  exists indx. split; [exact Htab|].
  apply neighbor_table_Ok in Htab.
  destruct Htab as (Hk & _ & Hlen & Hrows).
  rewrite <- Hlen in Hagg. apply neighbor_outputs_Ok in Hagg.
  destruct Hagg as (_ & Hin & ->).
  apply np_quantile_axis1_Ok in H.
  destruct H as (Hq0 & Hq1 & m & Hm & ->).
  destruct (Nat.leb_spec (length indx) 1) as [|Hgt]; [discriminate|].
  inversion Hm; subst m.
  repeat split; try assumption; try lia.
  apply Forall_forall. intros r Hr.
  rewrite Forall_forall in Hrows, Hin.
  split; [apply Hrows, Hr|apply Hin, Hr].
Qed.

(** The weighted matrix of a valid input holds finite values only. *)
Lemma weight_row_finite (var r : list Q) :
  Forall (fun v => ~ v == 0) var ->
  zip_with num_mul (map (fun v => num_inv (Fin v)) var) (map Fin r)
  = map Fin (zip_with (fun v c => / v * c) var r).
Proof.
  intros Hvar. revert r.
  induction Hvar as [|v var Hv Hvar IH]; intros [|c r]; simpl; try reflexivity.
  destruct (Qeq_bool v 0) eqn:E.
  - apply Qeq_bool_iff in E. contradiction.
  - simpl. now rewrite IH.
Qed.

Lemma check_weighting_Ok (x : matrix) (y : vector) (k : Z) (q : Q)
      (vw : bool) (p : Z) (N S : nat) :
  valid_input x y k q vw p N S ->
  exists Xw, check_array (feature_weighting x vw) = Ok Xw /\ length Xw = N.
Proof.
  intros [Hx HS Hy Hk Hq Hp Hvar].
  assert (0 < N)%nat as HN by lia.
  assert (forall f : list Q -> list Q,
             (forall r, length r = S -> length (f r) = S) ->
             check_array (map (map Fin) (map f x)) = Ok (map f x)
             /\ length (map f x) = N) as Hcheck.
  { intros f Hf.
    destruct (shape_map f x N S Hf Hx) as (Hl & Hr).
    split; [|exact Hl].
    apply check_array_map_Fin; [lia|].
    destruct (map f x) as [|r0 m]; [simpl in Hl; lia|].
    apply Forall_cons_iff in Hr. simpl. lia. }
  unfold feature_weighting, weight_rows. destruct vw.
  - assert (length (np_var_axis0 x) = S) as Hvl.
    { apply (np_var_axis0_spec x N S 0); assumption. }
    assert (Forall (fun v => ~ v == 0) (np_var_axis0 x)) as Hnz.
    { apply Forall_forall. intros v Hv.
      destruct (In_nth _ _ 0 Hv) as (j & Hj & <-).
      rewrite Hvl in Hj.
      destruct (np_var_axis0_spec x N S j Hx HN Hj) as (_ & E).
      rewrite E. now apply Hvar. }
    exists (map (fun r => zip_with (fun v c => / v * c) (np_var_axis0 x) r) x).
    rewrite (map_ext _ (fun r => map Fin
               (zip_with (fun v c => / v * c) (np_var_axis0 x) r)))
      by (intros r; now apply weight_row_finite).
    rewrite <- map_map. apply Hcheck.
    intros r Hr. rewrite zip_with_length. lia.
  - exists x. specialize (Hcheck (fun r => r) (fun r Hr => Hr)).
    now rewrite map_id in Hcheck.
Qed.

Lemma neighbor_table_valid (x : matrix) (y : vector) (k : Z) (q : Q)
      (vw : bool) (p : Z) (N S : nat) :
  valid_input x y k q vw p N S ->
  exists indx, neighbor_table x k vw p = Ok indx.
Proof.
  intros Hv. destruct (check_weighting_Ok _ _ _ _ _ _ _ _ Hv) as (Xw & Hc & Hl).
  destruct Hv as [Hx HS Hy Hk Hq Hp Hvar].
  unfold neighbor_table, nn_fit. cbv zeta.
  destruct (Z.leb_spec k 0) as [|_]; [lia|].
  destruct (Z.leb_spec p 0) as [|_]; [lia|].
  rewrite Hc. simpl. unfold kneighbors. rewrite Hc. simpl. rewrite Hl.
  destruct (Z.ltb_spec (Z.of_nat N) k) as [|_]; [lia|]. eauto.
Qed.

(** On a valid input of two rows or more the filter returns, and it
    returns one value per row. *)
Lemma nnqf_filter_returns (x : matrix) (y : vector) (k : Z) (q : Q)
      (vw : bool) (p : Z) (N S : nat) :
  valid_input x y k q vw p N S -> (2 <= N)%nat ->
  exists out, nnqf_filter x y k q vw p = Ok out /\ length out = N.
Proof.
  intros Hv HN.
  destruct (neighbor_table_valid _ _ _ _ _ _ _ _ Hv) as (indx & Htab).
  destruct Hv as [Hx HS Hy Hk Hq Hp Hvar].
  destruct Hx as (Hlen & _).
  rewrite nnqf_filter_unfold, Htab. simpl.
  apply neighbor_table_Ok in Htab.
  destruct Htab as (_ & _ & Hil & Hrows).
  destruct (Forall_rows_length _ _ _ Hrows) as (Hrl & Hin).
  rewrite Hlen, <- Hy in Hin.
  destruct (neighbor_outputs_in_range y indx _ Hrl) as (a & Ha);
    [lia|exact Hin|].
  rewrite <- Hil, Ha. simpl.
  apply neighbor_outputs_Ok in Ha. destruct Ha as (_ & _ & ->).
  destruct (Nat.leb_spec (length indx) 1) as [|_]; [lia|].
  rewrite np_quantile_axis1_valid by tauto.
  eexists. split; [reflexivity|].
  unfold gather. rewrite !length_map. lia.
Qed.

(* ------------------------------------------------------------------ *)
(** ** The quantile of a row: bounds and monotonicity *)

Lemma row_position_bounds (n : nat) (q : Q) :
  (0 < n)%nat -> 0 <= q -> q <= 1 ->
  0 <= (inject_Z (Z.of_nat n) - 1) * q
  /\ (inject_Z (Z.of_nat n) - 1) * q <= inject_Z (Z.of_nat (n - 1)).
Proof.
  intros Hn Hq0 Hq1.
  pose proof (inject_nat_pred n Hn) as Hpred.
  assert (0 <= inject_Z (Z.of_nat (n - 1))) as Hm0.
  { change 0 with (inject_Z 0). rewrite <- Zle_Qle. lia. }
  split; nra.
Qed.

Lemma quantile_linear_bounds (q : Q) (ys : list Q) :
  ys <> [] -> 0 <= q -> q <= 1 ->
  exists v,
    quantile_linear q ys = Fin v
    /\ row_min ys <= v /\ v <= row_max ys
    /\ (q == 0 -> v == row_min ys)
    /\ (q == 1 -> v == row_max ys).
Proof.
  intros Hne Hq0 Hq1.
  destruct (quantile_linear_interp q ys Hne Hq0 Hq1) as (v & Hv & Ev).
  exists v. split; [exact Hv|].
  set (arr := sort_values ys) in *.
  assert (length arr = length ys) as Hlen by apply sort_values_length.
  assert (0 < length ys)%nat as Hn by (destruct ys; [congruence|simpl; lia]).
  set (t := (inject_Z (Z.of_nat (length ys)) - 1) * q) in *.
  destruct (row_position_bounds (length ys) q Hn Hq0 Hq1) as (Ht0 & Ht1).
  fold t in Ht0, Ht1.
  pose proof (sort_values_sorted ys) as Hs. fold arr in Hs.
  rewrite <- Hlen in Ht1.
  destruct (interp_between arr Hs t Ht0 Ht1) as (Hl & Hlo & Hhi); [lia|].
  assert (forall i, (i < length arr)%nat ->
                    row_min ys <= nth i arr 0 /\ nth i arr 0 <= row_max ys)
    as Hel.
  { intros i Hi.
    assert (In (nth i arr 0) ys) as Hin by (apply sort_values_In, nth_In, Hi).
    split; [now apply row_min_le|now apply row_max_ge]. }
  rewrite Ev. repeat split.
  - eapply Qle_trans; [|exact Hlo]. apply Hel. lia.
  - eapply Qle_trans; [exact Hhi|]. apply Hel. lia.
  - intros E0.
    assert (t == 0) as Et by (subst t; rewrite E0; ring).
    unfold interp. rewrite (Qfloor_comp _ _ Et). change (Qfloor 0) with 0%Z.
    simpl (Z.to_nat 0). rewrite Et.
    rewrite <- (sort_values_first ys Hne). fold arr. simpl. ring.
  - intros E1.
    assert (t == inject_Z (Z.of_nat (length ys - 1))) as Et.
    { subst t. rewrite E1, (inject_nat_pred _ Hn). ring. }
    unfold interp. rewrite (Qfloor_comp _ _ Et), floor_nat_of_nat, Hlen.
    replace (Nat.min (length ys - 1 + 1) (length ys - 1))
      with (length ys - 1)%nat by lia.
    rewrite <- (sort_values_last ys Hne). fold arr. ring.
Qed.


Lemma gather_nth (y : vector) (indx : list (list nat)) (i : nat) :
  nth i (gather y indx) [] = map (fun j => nth j y 0) (nth i indx []).
Proof.
  unfold gather.
  change (@nil Q) with (map (fun j => nth j y 0) (@nil nat)) at 1.
  apply map_nth.
Qed.

Lemma nth_error_map_in {A B : Type} (f : A -> B) (l : list A) (i : nat)
      (d : A) :
  (i < length l)%nat -> nth_error (map f l) i = Some (f (nth i l d)).
Proof.
  intros Hi. rewrite nth_error_map.
  destruct (nth_error l i) as [a|] eqn:E.
  - simpl. now rewrite (nth_error_nth _ _ d E).
  - apply nth_error_None in E. lia.
Qed.

(* ------------------------------------------------------------------ *)
(** ** A sample is its own nearest neighbour *)

Section SelfNearest.

Variable p : Z.
Hypothesis p_pos : (0 < p)%Z.

Lemma term_nonneg (u v : Q) : 0 <= minkowski_term p u v.
Proof. unfold minkowski_term. apply Qpower_0_le, Qabs_nonneg. Qed.

Lemma term_self (u : Q) : minkowski_term p u u == 0.
Proof.
  unfold minkowski_term.
  assert (Qabs (u - u) == 0) as E.
  { assert (u - u == 0) as -> by ring. reflexivity. }
  rewrite E. apply Qpower_0. lia.
Qed.

Lemma term_pos (u v : Q) : ~ u == v -> 0 < minkowski_term p u v.
Proof.
  intros Huv. unfold minkowski_term. apply Qpower_0_lt.
  destruct (Qlt_le_dec (u - v) 0) as [Hneg|Hpos].
  - rewrite Qabs_neg by lra. lra.
  - rewrite Qabs_pos by exact Hpos.
    destruct (Qlt_le_dec 0 (u - v)) as [H|H]; [exact H|].
    exfalso. apply Huv. lra.
Qed.

Lemma minkowski_pow_nonneg (a b : list Q) : 0 <= minkowski_pow p a b.
Proof.
  unfold minkowski_pow. revert b.
  induction a as [|u a IH]; intros [|v b]; cbn [zip_with fold_right];
    try lra.
  pose proof (term_nonneg u v) as H.
  specialize (IH b). lra.
Qed.

Lemma minkowski_pow_self (a : list Q) : minkowski_pow p a a == 0.
Proof.
  unfold minkowski_pow.
  induction a as [|u a IH]; cbn [zip_with fold_right]; [reflexivity|].
  pose proof (term_self u) as H.
  rewrite H, IH. ring.
Qed.

Lemma minkowski_pow_pos (a b : list Q) :
  length a = length b -> rows_differ a b -> 0 < minkowski_pow p a b.
Proof.
  intros Hlen (d & Hd & Hne). revert b d Hlen Hd Hne.
  induction a as [|u a IH]; intros [|v b] d Hlen Hd Hne;
    cbn [length nth] in *; try lia.
  unfold minkowski_pow. cbn [zip_with fold_right].
  fold (minkowski_pow p a b).
  pose proof (term_nonneg u v) as Ht.
  pose proof (minkowski_pow_nonneg a b) as Hr.
  destruct d as [|d].
  - pose proof (term_pos u v Hne) as H. lra.
  - assert (0 < minkowski_pow p a b) as H by (apply (IH b d); lia || auto).
    lra.
Qed.

Variable X : matrix.
Variable S : nat.
Hypothesis X_rows : Forall (fun r => length r = S) X.
Hypothesis X_distinct :
  forall i j, (i < length X)%nat -> (j < length X)%nat -> i <> j ->
    rows_differ (nth i X []) (nth j X []).

(** With distinct rows, the index closest to row [i] is [i]. *)
Lemma argsort_self_first (i : nat) :
  (i < length X)%nat ->
  exists t,
    argsort (fun j => minkowski_pow p (nth i X []) (nth j X [])) (length X)
    = i :: t.
Proof.
  intros Hi.
  set (key := fun j => minkowski_pow p (nth i X []) (nth j X [])).
  destruct (argsort_head_min key (length X)) as (h & t & E & Hh & Hmin);
    [lia|].
  exists t. rewrite E. f_equal.
  destruct (Nat.eq_dec h i) as [->|Hne]; [reflexivity|exfalso].
  specialize (Hmin i Hi).
  assert (key i == 0) as Hself by apply minkowski_pow_self.
  assert (0 < key h) as Hpos.
  { apply minkowski_pow_pos.
    - rewrite Forall_forall in X_rows.
      rewrite !X_rows; [reflexivity|apply nth_In; lia|apply nth_In; lia].
    - apply X_distinct; auto. }
  lra.
Qed.

End SelfNearest.

Lemma neighbor_table_rows (x : matrix) (k : Z) (vw : bool) (p : Z)
      (indx : list (list nat)) :
  neighbor_table x k vw p = Ok indx ->
  exists m,
    check_array (feature_weighting x vw) = Ok (nn_fit_X m)
    /\ nn_n_neighbors m = k /\ nn_p m = p /\ (0 < p)%Z
    /\ length (nn_fit_X m) = length x
    /\ indx = map (kneighbors_row m) (nn_fit_X m).
Proof.
  unfold neighbor_table. intros H. bind_inv H. rename a into m.
  exists m.
  pose proof (nn_fit_Ok _ _ _ _ Hbind) as (_ & _ & _ & _ & Hc).
  destruct (neighbor_search_Ok _ _ _ _ _ Hbind H)
    as (Hx & _ & Hp & Ek & Ep & Hindx & _ & _).
  repeat split; try assumption.
  rewrite <- (feature_weighting_length x vw), Hx.
  now rewrite length_map.
Qed.

Lemma quantile_linear_single (q a : Q) :
  0 <= q -> q <= 1 -> num_same (quantile_linear q [a]) (Fin a).
Proof.
  intros H0 H1.
  destruct (quantile_linear_bounds q [a]) as (v & -> & Hlo & Hhi & _);
    [discriminate|exact H0|exact H1|].
  simpl in *. lra.
Qed.

(** With [num_neighbors = 1], at least two rows and pairwise distinct rows
    the filter returns the values of [y_output]. *)
Lemma nnqf_filter_one_neighbor (x : matrix) (y : vector) (q : Q) (vw : bool)
      (p : Z) (N S : nat) :
  valid_input x y 1 q vw p N S -> (2 <= N)%nat ->
  weighted_rows_distinct x vw ->
  exists out,
    nnqf_filter x y 1 q vw p = Ok out
    /\ length out = N
    /\ forall i, (i < N)%nat -> num_same (nth i out NaN) (Fin (nth i y 0)).
Proof.
  intros Hv HN Hdist.
  destruct (nnqf_filter_returns _ _ _ _ _ _ _ _ Hv HN) as (out & Hout & Hol).
  exists out. split; [exact Hout|]. split; [exact Hol|].
  destruct Hv as [Hx HS Hy Hk (Hq0 & Hq1) Hp Hvar].
  apply nnqf_filter_Ok in Hout.
  destruct Hout as (indx & Htab & Hil & _ & _ & _ & _ & _ & ->).
  destruct (neighbor_table_rows _ _ _ _ _ Htab)
    as (m & Hc & Ek & Ep & _ & HXl & ->).
  pose proof (feature_weighting_shape x vw N S Hx) as (_ & Hwr).
  pose proof (check_array_Ok _ _ Hc) as (Hxw & _ & _).
  assert (Forall (fun r => length r = S) (nn_fit_X m)) as HXr.
  { apply Forall_forall. intros r Hr.
    rewrite Forall_forall in Hwr. rewrite <- (length_map Fin).
    apply Hwr. rewrite Hxw. now apply in_map. }
  destruct Hx as (Hlen & _).
  intros i Hi.
  rewrite (nth_indep _ NaN (quantile_linear q []))
    by (unfold gather; rewrite !length_map; lia).
  rewrite map_nth, gather_nth.
  rewrite (nth_indep _ [] (kneighbors_row m [])) by (rewrite length_map; lia).
  rewrite map_nth. unfold kneighbors_row. rewrite Ek, Ep.
  destruct (argsort_self_first p Hp (nn_fit_X m) S HXr (Hdist _ Hc) i)
    as (t & ->); [lia|].
  simpl. now apply quantile_linear_single.
Qed.

(** For a table of two rows or more whose indices are indices of [y], the
    aggregation produces the table with entry [[i,j]] equal to
    [y[indx[i,j]]]. *)
Lemma neighbor_outputs_table (y : vector) (indx : list (list nat)) (k : nat) :
  (2 <= length indx)%nat ->
  Forall (fun r => length r = k) indx ->
  Forall (Forall (fun j => (j < length y)%nat)) indx ->
  neighbor_outputs y indx (length indx) = Ok (Arr2 (gather y indx)).
Proof.
  intros Hn Hrl Hin.
  destruct (neighbor_outputs_in_range y indx k Hrl) as (a & Ha);
    [lia|exact Hin|].
  rewrite Ha. apply neighbor_outputs_Ok in Ha. destruct Ha as (_ & _ & ->).
  destruct (Nat.leb_spec (length indx) 1) as [|_]; [lia|reflexivity].
Qed.

(* ================================================================== *)
(** * The claims *)

Ltac solve_columns :=
  match goal with
  | |- forall j, (j < _)%nat -> ~ _ == _ =>
      let j := fresh "j" in
      let Hj := fresh "Hj" in
      intros j Hj;
      repeat (destruct j as [|j]; [cbv; discriminate|]);
      exfalso; lia
  end.

Ltac solve_valid :=
  constructor;
  [ split; [reflexivity|repeat constructor]
  | lia | reflexivity | lia
  | split; cbv; discriminate
  | lia
  | first [discriminate | intros _; solve_columns] ].

(** C1.  The filter does not return a vector of length [N] on every valid
    input: on this valid input of a single row it raises [AxisError]. *)
Theorem nnqf_filter_single_row_raises :
  valid_input [[1; 2]] [5] 1 (1 # 2) false 2 1 2
  /\ nnqf_filter [[1; 2]] [5] 1 (1 # 2) false 2 = Raise AxisError.
Proof. split; [solve_valid|reflexivity]. Qed.

(** C10.  On every valid input of a single row the aggregation leaves a
    one-dimensional array of [k] values, the quantile along axis 1 of that
    array raises [AxisError], and so does the filter: it returns no
    vector. *)
Theorem single_row_no_output (x : matrix) (y : vector) (k : Z) (q : Q)
        (vw : bool) (p : Z) (S : nat) :
  valid_input x y k q vw p 1 S ->
  (exists indx v,
      neighbor_table x k vw p = Ok indx
      /\ neighbor_outputs y indx (np_size0 (feature_weighting x vw))
         = Ok (Arr1 v)
      /\ length v = Z.to_nat k
      /\ np_quantile_axis1 (Arr1 v) q = Raise AxisError)
  /\ nnqf_filter x y k q vw p = Raise AxisError
  /\ forall out, nnqf_filter x y k q vw p <> Ok out.
Proof.
  intros Hv.
  destruct (neighbor_table_valid _ _ _ _ _ _ _ _ Hv) as (indx & Htab).
  destruct Hv as [(Hlen & _) HS Hy Hk (Hq0 & Hq1) Hp Hvar].
  pose proof (neighbor_table_Ok _ _ _ _ _ Htab) as (_ & _ & Hil & Hrows).
  destruct (Forall_rows_length _ _ _ Hrows) as (Hrl & Hin).
  rewrite Hlen, <- Hy in Hin.
  destruct (neighbor_outputs_in_range y indx _ Hrl) as (a & Ha);
    [lia|exact Hin|].
  pose proof (neighbor_outputs_Ok _ _ _ Ha) as (_ & _ & Ea).
  destruct (Nat.leb_spec (length indx) 1) as [_|]; [|lia].
  assert (np_quantile_axis1 a q = Raise AxisError) as Hquant.
  { subst a. unfold np_quantile_axis1, quantile_is_valid.
    apply Qle_bool_iff in Hq0, Hq1. now rewrite Hq0, Hq1. }
  assert (nnqf_filter x y k q vw p = Raise AxisError) as Hres.
  { rewrite nnqf_filter_unfold, Htab. simpl.
    rewrite <- Hil, Ha. simpl. exact Hquant. }
  split; [|split; [exact Hres|intros out; rewrite Hres; discriminate]].
  exists indx, (map (fun j => nth j y 0) (nth 0 indx [])).
  unfold np_size0. rewrite feature_weighting_length, <- Hil, Ha, <- Ea.
  repeat split; [exact Htab| |exact Hquant].
  rewrite length_map.
  rewrite Forall_forall in Hrl. apply Hrl, nth_In. lia.
Qed.

(** A single row of three features. *)
Lemma single_row_no_output_witness :
  valid_input [[4; 7; 1]] [9] 1 (1 # 3) false 2 1 3
  /\ nnqf_filter [[4; 7; 1]] [9] 1 (1 # 3) false 2 = Raise AxisError.
Proof.
  assert (valid_input [[4; 7; 1]] [9] 1 (1 # 3) false 2 1 3) as Hv
    by solve_valid.
  split; [exact Hv|].
  destruct (single_row_no_output _ _ _ _ _ _ _ Hv) as (_ & H & _).
  exact H.
Defined.

(** C4.  With [num_neighbors = 1] the filter does not return [y_output] on
    every valid input with distinct rows: on this valid input of a single
    row it raises [AxisError]. *)
Theorem one_neighbor_single_row_raises :
  valid_input [[3; 4]] [7] 1 0 false 1 1 2
  /\ nnqf_filter [[3; 4]] [7] 1 0 false 1 = Raise AxisError.
Proof. split; [solve_valid|reflexivity]. Qed.

(** C6.  The aggregation does not produce an [N]-by-[k] table for every
    [N]: for a table of indices of a single row it leaves the
    one-dimensional array of the values of that row. *)
Theorem neighbor_outputs_single_row :
  neighbor_table [[1; 2]] 1 false 2 = Ok [[0%nat]]
  /\ neighbor_outputs [5] [[0%nat]] 1 = Ok (Arr1 [5]).
Proof. split; reflexivity. Qed.

(* ------------------------------------------------------------------ *)
(** ** Failures *)

Lemma neighbor_outputs_Raise (y : vector) (indx : list (list nat)) (k : nat)
      (e : exn) :
  Forall (fun r => length r = k) indx ->
  neighbor_outputs y indx (length indx) = Raise e -> e = IndexError.
Proof.
  intros Hrl. unfold neighbor_outputs.
  destruct (index_row indx 0) as [row0|e0] eqn:E0; simpl.
  - apply index_row_Ok in E0. destruct E0 as (Hn & <-).
    destruct (np_take y (nth 0 indx [])) as [vals|e1] eqn:E1; simpl.
    + apply np_take_Ok in E1. destruct E1 as (-> & _).
      intros H.
      destruct (stack_rows_result y indx k Hrl (seq 1 (length indx - 1))
                  (Arr1 (map (fun j => nth j y 0) (nth 0 indx []))))
        as [(a & Ha)|Hr].
      * apply Forall_forall. intros i Hi. apply in_seq in Hi. lia.
      * discriminate.
      * simpl. rewrite length_map. now apply (nth_indx_length indx k Hrl).
      * congruence.
      * congruence.
    + apply np_take_Raise in E1. congruence.
  - unfold index_row in E0. destruct (nth_error indx 0); congruence.
Qed.

Lemma np_quantile_axis1_Raise (a : ndarray) (q : Q) (e : exn) :
  np_quantile_axis1 a q = Raise e -> e = ValueError \/ e = AxisError.
Proof.
  unfold np_quantile_axis1.
  destruct (negb (quantile_is_valid q)); [left; congruence|].
  destruct a; [right; congruence|discriminate].
Qed.

(** The filter raises nothing but [ValueError], [IndexError] and
    [AxisError]. *)
Lemma nnqf_filter_Raise (x : matrix) (y : vector) (k : Z) (q : Q)
      (vw : bool) (p : Z) (e : exn) :
  nnqf_filter x y k q vw p = Raise e ->
  e = ValueError \/ e = IndexError \/ e = AxisError.
Proof.
  rewrite nnqf_filter_unfold.
  destruct (neighbor_table x k vw p) as [indx|e0] eqn:Htab; simpl.
  - apply neighbor_table_Ok in Htab. destruct Htab as (_ & _ & Hil & Hrows).
    destruct (Forall_rows_length _ _ _ Hrows) as (Hrl & _).
    rewrite <- Hil.
    destruct (neighbor_outputs y indx (length indx)) as [a|e1] eqn:Hagg; simpl.
    + intros H. apply np_quantile_axis1_Raise in H. tauto.
    + apply neighbor_outputs_Raise with (k := Z.to_nat k) in Hagg;
        [|exact Hrl]. intros H. right. left. congruence.
  - apply neighbor_table_Raise in Htab. intros H. left. congruence.
Qed.

Lemma np_take_firstn (y : vector) (n : nat) (idx : list nat) :
  Forall (fun j => (j < n)%nat) idx ->
  np_take (firstn n y) idx = np_take y idx.
Proof.
  induction 1 as [|j idx Hj Hall IH]; simpl; [reflexivity|].
  rewrite nth_error_firstn.
  destruct (Nat.ltb_spec j n) as [_|]; [|lia].
  now rewrite IH.
Qed.

Lemma stack_rows_firstn (y : vector) (n : nat) (indx : list (list nat)) :
  Forall (Forall (fun j => (j < n)%nat)) indx ->
  forall todo acc,
    stack_rows (firstn n y) indx todo acc = stack_rows y indx todo acc.
Proof.
  intros Hall. induction todo as [|i todo IH]; intros acc; simpl;
    [reflexivity|].
  unfold index_row. destruct (nth_error indx i) as [row|] eqn:E; simpl;
    [|reflexivity].
  rewrite Forall_forall in Hall.
  rewrite np_take_firstn by (apply Hall; eapply nth_error_In; exact E).
  destruct (np_take y row) as [vals|]; simpl; [|reflexivity].
  destruct (np_vstack acc (Arr1 vals)); simpl; [apply IH|reflexivity].
Qed.

Lemma neighbor_outputs_firstn (y : vector) (n m : nat)
      (indx : list (list nat)) :
  Forall (Forall (fun j => (j < n)%nat)) indx ->
  neighbor_outputs (firstn n y) indx m = neighbor_outputs y indx m.
Proof.
  intros Hall. unfold neighbor_outputs, index_row.
  destruct (nth_error indx 0) as [row|] eqn:E; simpl; [|reflexivity].
  pose proof Hall as Hall'. rewrite Forall_forall in Hall'.
  rewrite np_take_firstn by (apply Hall'; eapply nth_error_In; exact E).
  destruct (np_take y row) as [vals|]; simpl; [|reflexivity].
  now apply stack_rows_firstn.
Qed.

(** C7 (as amended).  When [num_neighbors] is less than 1 or greater than
    the number of rows of [x_input], the filter raises [ValueError], the
    exception of the argument checks of the nearest-neighbour search; it
    returns no result. *)
Theorem invalid_k_raises_ValueError (x : matrix) (y : vector) (k : Z)
        (q : Q) (vw : bool) (p : Z) :
  (k < 1 \/ Z.of_nat (length x) < k)%Z ->
  nnqf_filter x y k q vw p = Raise ValueError.
Proof.
  intros Hk. rewrite nnqf_filter_unfold.
  destruct (neighbor_table x k vw p) as [indx|e] eqn:Htab; simpl.
  - apply neighbor_table_Ok in Htab. lia.
  - now rewrite (neighbor_table_Raise _ _ _ _ _ Htab).
Qed.

(** No neighbour at all on the example data. *)
Lemma invalid_k_raises_ValueError_witness :
  (0 < 1 \/ Z.of_nat (length example_x) < 0)%Z
  /\ nnqf_filter example_x example_y 0 (1 # 2) true 2 = Raise ValueError.
Proof.
  assert (0 < 1 \/ Z.of_nat (length example_x) < 0)%Z as Hk by (left; lia).
  split; [exact Hk|].
  exact (invalid_k_raises_ValueError example_x example_y 0 (1 # 2) true 2 Hk).
Defined.

(** C7, the claim as stated fails: with eleven neighbours on the ten rows
    of the example the filter raises [ValueError], not [InvalidK]. *)
Lemma invalid_k_counterexample :
  (11 < 1 \/ Z.of_nat (length example_x) < 11)%Z
  /\ nnqf_filter example_x example_y 11 (1 # 2) true 2 = Raise ValueError
  /\ nnqf_filter example_x example_y 11 (1 # 2) true 2 <> Raise InvalidK.
Proof.
  split; [right; simpl; lia|].
  assert (nnqf_filter example_x example_y 11 (1 # 2) true 2
          = Raise ValueError) as E by reflexivity.
  split; [exact E|]. rewrite E. discriminate.
Qed.

(** C8 (as amended).  When the length of [y_output] is not the number of
    rows of [x_input], the filter does not raise [ShapeMismatch].  If the
    table of neighbours holds an index that [y_output] does not have, the
    filter raises [IndexError]; if [y_output] is longer than [x_input] has
    rows, the filter computes what it computes for the first [N] values
    of [y_output]. *)
Theorem length_mismatch (x : matrix) (y : vector) (k : Z) (q : Q)
        (vw : bool) (p : Z) :
  length y <> length x ->
  nnqf_filter x y k q vw p <> Raise ShapeMismatch
  /\ (forall indx i j,
        neighbor_table x k vw p = Ok indx ->
        (i < length x)%nat -> In j (nth i indx []) -> (length y <= j)%nat ->
        nnqf_filter x y k q vw p = Raise IndexError)
  /\ ((length x < length y)%nat ->
      length (firstn (length x) y) = length x
      /\ nnqf_filter x y k q vw p
         = nnqf_filter x (firstn (length x) y) k q vw p).
Proof.
  intros Hne. split; [|split].
  - intros H. apply nnqf_filter_Raise in H.
    destruct H as [H|[H|H]]; discriminate.
  - intros indx i j Htab Hi Hj Hout.
    rewrite nnqf_filter_unfold, Htab. simpl.
    apply neighbor_table_Ok in Htab. destruct Htab as (_ & _ & Hil & Hrows).
    destruct (Forall_rows_length _ _ _ Hrows) as (Hrl & _).
    rewrite <- Hil in *.
    now rewrite (neighbor_outputs_out_of_range y indx _ Hrl i j Hi Hj Hout).
  - intros Hlt. split; [apply firstn_length_le; lia|].
    rewrite !nnqf_filter_unfold.
    destruct (neighbor_table x k vw p) as [indx|e] eqn:Htab; simpl;
      [|reflexivity].
    apply neighbor_table_Ok in Htab. destruct Htab as (_ & _ & _ & Hrows).
    destruct (Forall_rows_length _ _ _ Hrows) as (_ & Hin).
    now rewrite neighbor_outputs_firstn.
Qed.

(** One output value too many on the example data. *)
Lemma length_mismatch_witness :
  length (example_y ++ [3]) <> length example_x
  /\ nnqf_filter example_x (example_y ++ [3]) 3 (1 # 2) true 2
     = nnqf_filter example_x (firstn (length example_x) (example_y ++ [3]))
                   3 (1 # 2) true 2.
Proof.
  assert (length (example_y ++ [3]) <> length example_x) as Hne
    by (simpl; lia).
  split; [exact Hne|].
  destruct (length_mismatch example_x (example_y ++ [3]) 3 (1 # 2) true 2 Hne)
    as (_ & _ & H).
  apply H. simpl. lia.
Defined.

(** C8, the claim as stated fails: with nine output values for the ten
    rows of the example the filter raises [IndexError], not
    [ShapeMismatch]. *)
Lemma length_mismatch_counterexample :
  length (firstn 9 example_y) <> length example_x
  /\ nnqf_filter example_x (firstn 9 example_y) 3 (1 # 2) false 2
     = Raise IndexError
  /\ nnqf_filter example_x (firstn 9 example_y) 3 (1 # 2) false 2
     <> Raise ShapeMismatch.
Proof.
  split; [simpl; lia|].
  assert (nnqf_filter example_x (firstn 9 example_y) 3 (1 # 2) false 2
          = Raise IndexError) as E by reflexivity.
  split; [exact E|]. rewrite E. discriminate.
Qed.



(* ================================================================== *)
(** * Further properties of the filter *)

(** What every value of a returned vector is: the quantile of the gathered
    row, a finite number within the bounds of that row. *)
Lemma nnqf_filter_entries (x : matrix) (y : vector) (k : Z) (q : Q)
      (vw : bool) (p : Z) (out : list num) :
  nnqf_filter x y k q vw p = Ok out ->
  exists indx,
    neighbor_table x k vw p = Ok indx
    /\ length out = length x
    /\ forall i, (i < length x)%nat ->
         let ys := map (fun j => nth j y 0) (nth i indx []) in
         Forall (fun j => (j < length y)%nat) (nth i indx [])
         /\ ys <> []
         /\ nth i out NaN = quantile_linear q ys
         /\ exists v, nth i out NaN = Fin v
                      /\ row_min ys <= v /\ v <= row_max ys.
Proof.
  intros Hout. apply nnqf_filter_Ok in Hout.
  destruct Hout as (indx & Htab & Hil & _ & Hk & Hrows & Hq0 & Hq1 & ->).
  exists indx. split; [exact Htab|].
  split; [unfold gather; rewrite !length_map; exact Hil|].
  intros i Hi ys.
  assert (In (nth i indx []) indx) as Hin by (apply nth_In; lia).
  rewrite Forall_forall in Hrows. destruct (Hrows _ Hin) as (Hrl & Hrange).
  assert (ys <> []) as Hne.
  { intros E. apply (f_equal (@length Q)) in E. unfold ys in E.
    rewrite length_map in E. simpl in E. lia. }
  assert (nth i (map (quantile_linear q) (gather y indx)) NaN
          = quantile_linear q ys) as Hnth.
  { rewrite (nth_indep _ NaN (quantile_linear q []))
      by (unfold gather; rewrite !length_map; lia).
    now rewrite map_nth, gather_nth. }
  split; [exact Hrange|]. split; [exact Hne|]. split; [exact Hnth|].
  destruct (quantile_linear_bounds q ys Hne Hq0 Hq1)
    as (v & Hv & Hlo & Hhi & _).
  exists v. rewrite Hnth. auto.
Qed.

(** The values gathered from [y] lie within the range of [y]. *)
Lemma gathered_row_range (y : vector) (idx : list nat) :
  Forall (fun j => (j < length y)%nat) idx -> idx <> [] ->
  let ys := map (fun j => nth j y 0) idx in
  row_min y <= row_min ys /\ row_max ys <= row_max y.
Proof.
  intros Hin Hne ys.
  assert (ys <> []) as Hys.
  { intros E. apply (f_equal (@length Q)) in E. unfold ys in E.
    rewrite length_map in E. destruct idx; [congruence|discriminate]. }
  assert (forall c, In c ys -> In c y) as Hsub.
  { intros c Hc. apply in_map_iff in Hc. destruct Hc as (j & <- & Hj).
    rewrite Forall_forall in Hin. apply nth_In, Hin, Hj. }
  destruct (row_min_In ys Hys) as (c & Hc & <-).
  destruct (row_max_In ys Hys) as (d & Hd & <-).
  split; [apply row_min_le|apply row_max_ge]; auto.
Qed.

(** X3.  A constant output signal is left as it is: when every value of
    [y_output] is [c], every value that the filter returns is [c]. *)
Theorem constant_outputs_unchanged (x : matrix) (y : vector) (k : Z) (q : Q)
        (vw : bool) (p : Z) (c : Q) (out : list num) :
  Forall (fun v => v == c) y ->
  nnqf_filter x y k q vw p = Ok out ->
  length out = length x
  /\ forall i, (i < length x)%nat -> num_same (nth i out NaN) (Fin c).
Proof.
  intros Hc Hout.
  destruct (nnqf_filter_entries _ _ _ _ _ _ _ Hout) as (indx & _ & Hl & Hent).
  split; [exact Hl|]. intros i Hi.
  destruct (Hent i Hi) as (Hrange & Hne & _ & v & -> & Hlo & Hhi).
  set (ys := map (fun j => nth j y 0) (nth i indx [])) in *.
  assert (forall d, In d ys -> d == c) as Hall.
  { intros d Hd. apply in_map_iff in Hd. destruct Hd as (j & <- & Hj).
    rewrite Forall_forall in Hc, Hrange. apply Hc, nth_In, Hrange, Hj. }
  destruct (row_min_In ys Hne) as (a & Ha & Ea).
  destruct (row_max_In ys Hne) as (b & Hb & Eb).
  apply Hall in Ha, Hb. simpl. lra.
Qed.

(** The small data set with the constant signal 7. *)
Lemma constant_outputs_unchanged_witness :
  Forall (fun v => v == 7) [7; 7; 7]
  /\ forall i, (i < length small_x)%nat ->
       num_same (nth i [Fin (14 # 2); Fin (14 # 2); Fin (14 # 2)] NaN) (Fin 7).
Proof.
  assert (Forall (fun v => v == 7) [7; 7; 7]) as Hc
    by (repeat constructor).
  split; [exact Hc|].
  destruct (constant_outputs_unchanged small_x [7; 7; 7] 2 (1 # 2) true 2 7
              [Fin (14 # 2); Fin (14 # 2); Fin (14 # 2)] Hc) as (_ & H);
    [reflexivity|exact H].
Defined.

(** X5.  A [q_quantile] outside [[0, 1]], on an input that is valid
    otherwise, makes the filter raise [ValueError]: the check of
    [np.quantile] comes after the aggregation and before the reduction, for
    a single row as for more. *)
Theorem invalid_quantile_raises_ValueError (x : matrix) (y : vector) (k : Z)
        (q : Q) (vw : bool) (p : Z) (N S : nat) :
  valid_input x y k 0 vw p N S ->
  q < 0 \/ 1 < q ->
  nnqf_filter x y k q vw p = Raise ValueError.
Proof.
  intros Hv Hq.
  destruct (neighbor_table_valid _ _ _ _ _ _ _ _ Hv) as (indx & Htab).
  destruct Hv as [(Hlen & _) HS Hy Hk _ Hp Hvar].
  rewrite nnqf_filter_unfold, Htab. simpl.
  apply neighbor_table_Ok in Htab.
  destruct Htab as (_ & _ & Hil & Hrows).
  destruct (Forall_rows_length _ _ _ Hrows) as (Hrl & Hin).
  rewrite Hlen, <- Hy in Hin.
  destruct (neighbor_outputs_in_range y indx _ Hrl) as (a & Ha);
    [lia|exact Hin|].
  rewrite <- Hil, Ha. simpl.
  unfold np_quantile_axis1, quantile_is_valid.
  destruct Hq as [Hq|Hq].
  - destruct (Qle_bool 0 q) eqn:E; [|reflexivity].
    apply Qle_bool_iff in E. lra.
  - destruct (Qle_bool q 1) eqn:E;
      [|now rewrite andb_false_r].
    apply Qle_bool_iff in E. lra.
Qed.

(** The small data set with the "probability" 3/2. *)
Lemma invalid_quantile_raises_ValueError_witness :
  valid_input small_x small_y 2 0 true 2 3 2
  /\ ((3 # 2) < 0 \/ 1 < (3 # 2))
  /\ nnqf_filter small_x small_y 2 (3 # 2) true 2 = Raise ValueError.
Proof.
  assert (valid_input small_x small_y 2 0 true 2 3 2) as Hv by solve_valid.
  assert ((3 # 2) < 0 \/ 1 < (3 # 2)) as Hq by (right; reflexivity).
  split; [exact Hv|]. split; [exact Hq|].
  exact (invalid_quantile_raises_ValueError _ _ _ _ _ _ _ _ Hv Hq).
Defined.

Lemma np_take_rows_Ok (y : vector) (indx : list (list nat))
      (rows : list (list Q)) :
  np_take_rows y indx = Ok rows ->
  rows = gather y indx
  /\ Forall (Forall (fun j => (j < length y)%nat)) indx.
Proof.
  revert rows. induction indx as [|row indx IH]; simpl; intros rows H.
  - inversion H. split; [reflexivity|constructor].
  - bind_inv H. rename a into vals, Hbind into Hvals.
    bind_inv H. rename a into rest, Hbind into Hrest.
    inversion H; subst rows.
    apply np_take_Ok in Hvals. destruct Hvals as (-> & Hin).
    destruct (IH _ Hrest) as (-> & Hall).
    split; [reflexivity|now constructor].
Qed.

Lemma np_take_Raise_index (y : vector) (idx : list nat) (e : exn) :
  np_take y idx = Raise e ->
  exists j, In j idx /\ (length y <= j)%nat.
Proof.
  induction idx as [|j idx IH]; simpl; [discriminate|].
  destruct (nth_error y j) as [v|] eqn:E.
  - destruct (np_take y idx) as [vs|e'] eqn:E'; simpl; [discriminate|].
    intros H. destruct (IH H) as (j' & Hj' & Hout).
    exists j'. auto.
  - intros _. exists j. split; [now left|]. now apply nth_error_None.
Qed.

Lemma np_take_rows_Raise (y : vector) (indx : list (list nat)) (e : exn) :
  np_take_rows y indx = Raise e ->
  e = IndexError
  /\ exists i j, (i < length indx)%nat /\ In j (nth i indx [])
                 /\ (length y <= j)%nat.
Proof.
  induction indx as [|row indx IH]; simpl; [discriminate|].
  destruct (np_take y row) as [vals|e0] eqn:E0; simpl.
  - destruct (np_take_rows y indx) as [rest|e1] eqn:E1; simpl; [discriminate|].
    intros H. destruct (IH H) as (-> & i & j & Hi & Hj & Hout).
    split; [reflexivity|]. exists (Datatypes.S i), j. simpl.
    repeat split; try assumption. lia.
  - intros H. inversion H; subst e0.
    pose proof (np_take_Raise _ _ _ E0) as ->.
    destruct (np_take_Raise_index _ _ _ E0) as (j & Hj & Hout).
    split; [reflexivity|]. exists 0%nat, j. simpl.
    repeat split; try assumption. lia.
Qed.

(** X6.  For a table of two rows or more, the loop that stacks one
    gathered row after the other does what the single indexing operation
    [y[indx]] does: the same table when every index is an index of [y],
    the same [IndexError] when one is not. *)
Theorem aggregation_is_gather (y : vector) (indx : list (list nat))
        (k : nat) :
  (2 <= length indx)%nat ->
  Forall (fun r => length r = k) indx ->
  neighbor_outputs y indx (length indx)
  = (rows <- np_take_rows y indx ;; Ok (Arr2 rows)).
Proof.
  intros Hn Hrl.
  destruct (np_take_rows y indx) as [rows|e] eqn:E; simpl.
  - apply np_take_rows_Ok in E. destruct E as (-> & Hin).
    now apply (neighbor_outputs_table y indx k).
  - apply np_take_rows_Raise in E.
    destruct E as (-> & i & j & Hi & Hj & Hout).
    now apply (neighbor_outputs_out_of_range y indx k Hrl i j).
Qed.

(** A table of two rows of two indices. *)
Lemma aggregation_is_gather_witness :
  (2 <= length [[0; 1]; [1; 0]]%nat)%nat
  /\ Forall (fun r => length r = 2%nat) [[0; 1]; [1; 0]]%nat
  /\ neighbor_outputs [3; 1] [[0; 1]; [1; 0]]%nat 2
     = Ok (Arr2 [[3; 1]; [1; 3]]).
Proof.
  assert (2 <= length [[0; 1]; [1; 0]]%nat)%nat as Hn by (simpl; lia).
  assert (Forall (fun r => length r = 2%nat) [[0; 1]; [1; 0]]%nat) as Hrl
    by (repeat constructor).
  split; [exact Hn|]. split; [exact Hrl|].
  exact (aggregation_is_gather [3; 1] [[0; 1]; [1; 0]]%nat 2 Hn Hrl).
Defined.

(* ------------------------------------------------------------------ *)
(** ** The quantile does not depend on the order of the row *)

Lemma Forall2_Qeq_refl (l : list Q) : Forall2 Qeq l l.
Proof. induction l; constructor; [reflexivity|assumption]. Qed.

Lemma Forall2_Qeq_trans (l1 l2 l3 : list Q) :
  Forall2 Qeq l1 l2 -> Forall2 Qeq l2 l3 -> Forall2 Qeq l1 l3.
Proof.
  intros H. revert l3. induction H as [|a b l1 l2 Hab H IH]; intros l3 H3;
    inversion H3; subst; constructor.
  - etransitivity; eassumption.
  - now apply IH.
Qed.

Lemma Forall2_Qeq_nth (l1 l2 : list Q) :
  Forall2 Qeq l1 l2 ->
  length l1 = length l2 /\ forall i, nth i l1 0 == nth i l2 0.
Proof.
  induction 1 as [|a b l1 l2 Hab H (IHl & IHn)]; simpl.
  - split; [reflexivity|]. intros [|i]; reflexivity.
  - split; [now rewrite IHl|]. intros [|i]; [exact Hab|apply IHn].
Qed.

Ltac Qle_bool_cases :=
  repeat match goal with
         | |- context [Qle_bool ?u ?w] =>
             let E := fresh "E" in
             destruct (Qle_bool u w) eqn:E; cbn [insert_sorted]
         end;
  repeat match goal with
         | E : Qle_bool _ _ = true |- _ => apply Qle_bool_iff in E
         | E : Qle_bool ?u ?w = false |- _ =>
             assert (w < u)
               by (destruct (Qlt_le_dec w u) as [Hlt|Hle];
                   [exact Hlt|apply Qle_bool_iff in Hle; congruence]);
             clear E
         end.

Lemma insert_sorted_Qeq (a a' : Q) (s1 s2 : list Q) :
  a == a' -> Forall2 Qeq s1 s2 ->
  Forall2 Qeq (insert_sorted a s1) (insert_sorted a' s2).
Proof.
  intros Ha. induction 1 as [|b b' s1 s2 Hb H IH]; cbn [insert_sorted].
  - now repeat constructor.
  - Qle_bool_cases; try (exfalso; lra);
      repeat (constructor; try assumption).
Qed.

Lemma insert_sorted_swap (a b : Q) (s : list Q) :
  Forall2 Qeq (insert_sorted a (insert_sorted b s))
              (insert_sorted b (insert_sorted a s)).
Proof.
  induction s as [|c s IH]; cbn [insert_sorted].
  - Qle_bool_cases; try (exfalso; lra);
      repeat (constructor; try lra).
  - Qle_bool_cases; try (exfalso; lra);
      repeat (constructor; try lra);
      try apply Forall2_Qeq_refl; try exact IH.
Qed.

Lemma sort_values_perm_Qeq (l1 l2 : list Q) :
  Permutation l1 l2 -> Forall2 Qeq (sort_values l1) (sort_values l2).
Proof.
  induction 1 as [|a l1 l2 H IH|a b l|l1 l2 l3 H1 IH1 H2 IH2]; simpl.
  - constructor.
  - apply insert_sorted_Qeq; [reflexivity|exact IH].
  - apply insert_sorted_swap.
  - eapply Forall2_Qeq_trans; eassumption.
Qed.

Lemma interp_Qeq (a1 a2 : list Q) (t : Q) :
  Forall2 Qeq a1 a2 -> interp a1 t == interp a2 t.
Proof.
  intros H. apply Forall2_Qeq_nth in H. destruct H as (Hl & Hn).
  unfold interp. rewrite Hl, !Hn. reflexivity.
Qed.

(** Rows that hold the same values in another order have the same
    quantile. *)
Lemma quantile_linear_perm (q : Q) (l1 l2 : list Q) :
  Permutation l1 l2 -> l1 <> [] -> 0 <= q -> q <= 1 ->
  num_same (quantile_linear q l1) (quantile_linear q l2).
Proof.
  intros Hp Hne H0 H1.
  assert (l2 <> []) as Hne2.
  { intros E. subst l2. apply Permutation_sym, Permutation_nil in Hp.
    contradiction. }
  destruct (quantile_linear_interp q l1 Hne H0 H1) as (v1 & -> & E1).
  destruct (quantile_linear_interp q l2 Hne2 H0 H1) as (v2 & -> & E2).
  simpl. rewrite E1, E2, (Permutation_length Hp).
  apply interp_Qeq, sort_values_perm_Qeq, Hp.
Qed.

Lemma nth_quantile_gather (y : vector) (indx : list (list nat)) (q : Q)
      (i : nat) :
  (i < length indx)%nat ->
  nth i (map (quantile_linear q) (gather y indx)) NaN
  = quantile_linear q (map (fun j => nth j y 0) (nth i indx [])).
Proof.
  intros Hi.
  rewrite (nth_indep _ NaN (quantile_linear q []))
    by (unfold gather; rewrite !length_map; exact Hi).
  now rewrite map_nth, gather_nth.
Qed.

(** X12.  The call at the end of the file,
    [nnqf_filter(x_input, y_output, num_neighbors = 3)] with the default
    median, weighting and Euclidean distance, is a call on a valid input:
    it returns ten finite values, each between 1 and 8, the smallest and
    the largest value of [y_output]. *)
Theorem example_call_returns :
  valid_input example_x example_y 3 (1 # 2) true 2 10 7
  /\ exists yq_output,
      nnqf_filter example_x example_y 3 (1 # 2) true 2 = Ok yq_output
      /\ length yq_output = 10%nat
      /\ forall i, (i < 10)%nat ->
           exists v, nth i yq_output NaN = Fin v /\ 1 <= v /\ v <= 8.
Proof.
  assert (valid_input example_x example_y 3 (1 # 2) true 2 10 7) as Hv
    by solve_valid.
  split; [exact Hv|].
  destruct (nnqf_filter_returns _ _ _ _ _ _ _ _ Hv) as (out & Hout & Hol);
    [lia|].
  exists out. split; [exact Hout|]. split; [exact Hol|].
  destruct (nnqf_filter_entries _ _ _ _ _ _ _ Hout) as (indx & _ & _ & Hent).
  intros i Hi.
  destruct (Hent i) as (Hrange & Hne & _ & v & Ev & Hlo & Hhi);
    [simpl; lia|].
  exists v. split; [exact Ev|].
  assert (nth i indx [] <> []) as Hidx.
  { intros E. rewrite E in Hne. now apply Hne. }
  destruct (gathered_row_range example_y _ Hrange Hidx) as (Hmin & Hmax).
  assert (row_min example_y == 1) as E1 by reflexivity.
  assert (row_max example_y == 8) as E8 by reflexivity.
  split; [rewrite <- E1|rewrite <- E8]; eapply Qle_trans; eauto.
Qed.

Lemma NoDup_firstn {A : Type} (n : nat) (l : list A) :
  NoDup l -> NoDup (firstn n l).
Proof.
  revert l. induction n as [|n IH]; intros [|a l] H; simpl;
    try constructor.
  - inversion H; subst. intros Hin. apply In_firstn in Hin. contradiction.
  - inversion H; subst. now apply IH.
Qed.

(** X13.  The table of neighbours that a successful search returns has one
    row per sample; every row holds [num_neighbors] indices of samples, no
    index twice; and [num_neighbors] lies between 1 and the number of
    samples. *)
Theorem neighbor_table_shape (x : matrix) (k : Z) (vw : bool) (p : Z)
        (indx : list (list nat)) :
  neighbor_table x k vw p = Ok indx ->
  (1 <= k <= Z.of_nat (length x))%Z
  /\ length indx = length x
  /\ Forall (fun r => length r = Z.to_nat k
                      /\ NoDup r
                      /\ Forall (fun j => (j < length x)%nat) r) indx.
Proof.
  intros Htab.
  pose proof (neighbor_table_Ok _ _ _ _ _ Htab) as (Hk & _ & Hil & Hrows).
  split; [lia|]. split; [exact Hil|].
  destruct (neighbor_table_rows _ _ _ _ _ Htab)
    as (m & _ & _ & _ & _ & _ & E).
  apply Forall_forall. intros r Hr.
  rewrite Forall_forall in Hrows. destruct (Hrows r Hr) as (Hl & Hin).
  split; [exact Hl|]. split; [|exact Hin].
  rewrite E in Hr. apply in_map_iff in Hr. destruct Hr as (qr & <- & _).
  unfold kneighbors_row. apply NoDup_firstn.
  eapply Permutation_NoDup; [apply argsort_perm|apply seq_NoDup].
Qed.

(** The table of the small data set. *)
Lemma neighbor_table_shape_witness :
  (1 <= 2 <= Z.of_nat (length small_x))%Z
  /\ length [[0; 1]; [1; 0]; [2; 1]]%nat = length small_x
  /\ Forall (fun r => length r = Z.to_nat 2
                      /\ NoDup r
                      /\ Forall (fun j => (j < length small_x)%nat) r)
            [[0; 1]; [1; 0]; [2; 1]]%nat.
Proof.
  apply (neighbor_table_shape small_x 2 true 2). reflexivity.
Defined.

(* ================================================================== *)
(** * The quantile in the dtype of the output values *)

(** The two order statistics and the weight between which the quantile of
    a row interpolates, for the exact arithmetic and for every dtype. *)
Lemma quantile_linear_pair (q : Q) (row : list Q) :
  row <> [] -> 0 <= q -> q <= 1 ->
  exists (l l' : nat) (g : Q),
    (l <= l')%nat /\ (l' < length row)%nat
    /\ (l' = l
        \/ (g == (inject_Z (Z.of_nat (length row)) - 1) * q
                 - inject_Z (Z.of_nat l)
            /\ 0 <= g /\ g < 1))
    /\ quantile_linear q row
       = Fin (lerp (nth l (sort_values row) 0) (nth l' (sort_values row) 0) g)
    /\ forall dt,
        quantile_linear_dt dt q row
        = lerp_dt dt (nth l (sort_values row) 0)
                  (nth l' (sort_values row) 0) g.
Proof.
  intros Hrow Hq0 Hq1.
  destruct row as [|a0 r]; [congruence|].
  unfold quantile_linear, quantile_linear_dt. cbv iota.
  set (row := a0 :: r).
  set (arr := sort_values row).
  assert (length arr = length row) as Hlen by apply sort_values_length.
  cbv zeta. rewrite Hlen.
  set (n := length row).
  assert (0 < n)%nat as Hn by (subst n row; simpl; lia).
  set (t := (inject_Z (Z.of_nat n) - 1) * q).
  destruct (row_position_bounds n q Hn Hq0 Hq1) as (Ht0 & Ht1).
  fold t in Ht0, Ht1.
  pose proof (inject_nat_pred n Hn) as Hpred.
  destruct (floor_nat_bounds t Ht0) as [Hfl Hfu].
  unfold get_indexes.
  destruct (Qle_bool (inject_Z (Z.of_nat n) - 1) t) eqn:Eab.
  - destruct (Qlt_le_dec t 0) as [Hneg|_]; [lra|].
    exists (n - 1)%nat, (n - 1)%nat, (t - inject_Z (-1)).
    split; [lia|]. split; [lia|]. split; [now left|].
    unfold py_nth. change (-1 <? 0)%Z with true. cbv iota.
    fold n in Hlen. rewrite Hlen.
    replace (Z.to_nat (Z.of_nat n + -1)) with (n - 1)%nat by lia.
    split; [reflexivity|]. intros dt. reflexivity.
  - assert (t < inject_Z (Z.of_nat n) - 1) as Hlt.
    { destruct (Qlt_le_dec t (inject_Z (Z.of_nat n) - 1)) as [H|H];
        [exact H|]. apply Qle_bool_iff in H. congruence. }
    destruct (Qlt_le_dec t 0) as [Hneg|_]; [lra|].
    assert (0 <= Qfloor t)%Z as Hf0.
    { apply (Qfloor_resp_le 0 t) in Ht0. exact Ht0. }
    assert (Z.to_nat (Qfloor t) + 1 <= n - 1)%nat as Hl1.
    { assert (inject_Z (Z.of_nat (Z.to_nat (Qfloor t)))
              < inject_Z (Z.of_nat (n - 1))) as H by lra.
      rewrite <- Zlt_Qlt in H. lia. }
    exists (Z.to_nat (Qfloor t)), (Z.to_nat (Qfloor t) + 1)%nat,
      (t - inject_Z (Qfloor t)).
    split; [lia|]. split; [lia|]. split.
    { right. rewrite (Z2Nat.id _ Hf0) in *. split; [reflexivity|].
      split; lra. }
    unfold py_nth.
    destruct (Qfloor t <? 0)%Z eqn:E1; [apply Z.ltb_lt in E1; lia|].
    destruct (Qfloor t + 1 <? 0)%Z eqn:E2; [apply Z.ltb_lt in E2; lia|].
    replace (Z.to_nat (Qfloor t + 1)) with (Z.to_nat (Qfloor t) + 1)%nat
      by lia.
    split; [reflexivity|]. intros dt. reflexivity.
Qed.

Lemma max_float64_pos : 0 < max_float64.
Proof. reflexivity. Qed.

Lemma wrap_int64_small (z : Z) :
  (- 2 ^ 63 <= z < 2 ^ 63)%Z -> wrap_int64 z = z.
Proof.
  intros Hz. unfold wrap_int64.
  assert (2 ^ 63 = 9223372036854775808)%Z as E63 by reflexivity.
  assert (2 ^ 64 = 18446744073709551616)%Z as E64 by reflexivity.
  rewrite E63 in *. rewrite E64.
  rewrite Z.mod_small by lia. lia.
Qed.

Lemma num_same_Fin_inv (a : num) (v : Q) :
  num_same a (Fin v) -> exists w, a = Fin w /\ w == v.
Proof. destruct a as [w| | |]; simpl; try tauto. eauto. Qed.

(** Within the range of the dtype, [_lerp] computes what the exact
    interpolation gives. *)
Lemma lerp_dt_exact (dt : dtype) (a b g : Q) :
  a <= b -> b - a <= dtype_max dt ->
  (dt = Int64 -> a == inject_Z (Qfloor a) /\ b == inject_Z (Qfloor b)) ->
  num_same (lerp_dt dt a b g) (Fin (lerp a b g)).
Proof.
  intros Hab Hrange Hint. unfold lerp_dt, lerp.
  destruct dt; unfold np_subtract.
  - destruct (Hint eq_refl) as (Ha & Hb).
    assert (Qfloor a <= Qfloor b)%Z as Hle by now apply Qfloor_resp_le.
    assert (Qfloor b - Qfloor a <= 2 ^ 63 - 1)%Z as Hup.
    { simpl in Hrange. rewrite Ha, Hb in Hrange.
      rewrite Zle_Qle. unfold Z.sub at 1. rewrite inject_Z_plus, inject_Z_opp.
      exact Hrange. }
    rewrite wrap_int64_small by lia.
    assert (inject_Z (Qfloor b - Qfloor a) == b - a) as Ed.
    { unfold Z.sub. rewrite inject_Z_plus, inject_Z_opp, <- Ha, <- Hb.
      reflexivity. }
    destruct (Qle_bool (1 # 2) g);
      cbn [num_sub num_add num_opp num_mul num_same]; rewrite Ed; ring.
  - simpl in Hrange. unfold to_float64.
    pose proof max_float64_pos as Hmax.
    assert (Qle_bool (b - a) max_float64 = true) as -> by
        (apply Qle_bool_iff; exact Hrange).
    assert (Qle_bool (- max_float64) (b - a) = true) as -> by
        (apply Qle_bool_iff; lra).
    destruct (Qle_bool (1 # 2) g);
      cbn [num_sub num_add num_opp num_mul num_same]; ring.
Qed.

Lemma quantile_linear_dt_exact (dt : dtype) (q : Q) (ys : list Q) :
  ys <> [] -> 0 <= q -> q <= 1 -> row_in_range dt ys ->
  num_same (quantile_linear_dt dt q ys) (quantile_linear q ys).
Proof.
  intros Hne Hq0 Hq1 (Hty & Hspread).
  destruct (quantile_linear_pair q ys Hne Hq0 Hq1)
    as (l & l' & g & Hll & Hl' & _ & -> & Hdt).
  rewrite Hdt.
  set (arr := sort_values ys).
  assert (length arr = length ys) as Hlen by apply sort_values_length.
  assert (forall i, (i < length ys)%nat -> In (nth i arr 0) ys) as Hin.
  { intros i Hi. apply (proj1 (sort_values_In ys _)).
    apply nth_In. fold arr. lia. }
  apply lerp_dt_exact.
  - apply sorted_nth_le; [apply sort_values_sorted|lia|].
    fold arr. lia.
  - eapply Qle_trans; [|exact Hspread].
    pose proof (row_max_ge ys _ (Hin l' Hl')).
    pose proof (row_min_le ys _ (Hin l ltac:(lia))).
    lra.
  - intros ->. unfold array_of in Hty. rewrite Forall_forall in Hty.
    split; [apply (Hty _ (Hin l ltac:(lia)))|apply (Hty _ (Hin l' Hl'))].
Qed.

Lemma nnqf_filter_dt_unfold (dt : dtype) (x : matrix) (y : vector) (k : Z)
      (q : Q) (vw : bool) (p : Z) :
  nnqf_filter_dt dt x y k q vw p
  = (indx <- neighbor_table x k vw p ;;
     filter_table dt y indx (length x) q).
Proof.
  unfold nnqf_filter_dt, neighbor_table, np_size0.
  rewrite feature_weighting_length.
  destruct (nn_fit k p (feature_weighting x vw)); reflexivity.
Qed.

Lemma np_quantile_axis1_dt_Ok (dt : dtype) (a : ndarray) (q : Q)
      (out : list num) :
  np_quantile_axis1_dt dt a q = Ok out ->
  0 <= q /\ q <= 1
  /\ exists m, a = Arr2 m /\ out = map (quantile_linear_dt dt q) m.
Proof.
  unfold np_quantile_axis1_dt, quantile_is_valid.
  destruct (Qle_bool 0 q) eqn:E0; [|discriminate].
  destruct (Qle_bool q 1) eqn:E1; [|discriminate].
  simpl. apply Qle_bool_iff in E0, E1.
  destruct a as [v|m]; [discriminate|].
  intros H. inversion H. eauto.
Qed.

Lemma np_quantile_axis1_dt_valid (dt : dtype) (m : list (list Q)) (q : Q) :
  0 <= q -> q <= 1 ->
  np_quantile_axis1_dt dt (Arr2 m) q = Ok (map (quantile_linear_dt dt q) m).
Proof.
  intros H0 H1. unfold np_quantile_axis1_dt, quantile_is_valid.
  apply Qle_bool_iff in H0, H1. now rewrite H0, H1.
Qed.

(** What is known when lines 97-108 return. *)
Lemma filter_table_Ok (dt : dtype) (y : vector) (indx : list (list nat))
      (q : Q) (out : list num) :
  filter_table dt y indx (length indx) q = Ok out ->
  (2 <= length indx)%nat
  /\ Forall (Forall (fun j => (j < length y)%nat)) indx
  /\ 0 <= q /\ q <= 1
  /\ out = map (quantile_linear_dt dt q) (gather y indx).
Proof.
  unfold filter_table. intros H. bind_inv H. rename a into arr.
  apply neighbor_outputs_Ok in Hbind. destruct Hbind as (_ & Hin & ->).
  apply np_quantile_axis1_dt_Ok in H.
  destruct H as (Hq0 & Hq1 & m & Hm & ->).
  destruct (Nat.leb_spec (length indx) 1) as [|Hgt]; [discriminate|].
  inversion Hm; subst m. repeat split; assumption.
Qed.

(** Lines 97-108 return on a table of two rows or more whose indices are
    indices of [y]. *)
Lemma filter_table_returns (dt : dtype) (y : vector)
      (indx : list (list nat)) (kk : nat) (q : Q) :
  (2 <= length indx)%nat ->
  Forall (fun r => length r = kk
                   /\ Forall (fun j => (j < length y)%nat) r) indx ->
  0 <= q -> q <= 1 ->
  filter_table dt y indx (length indx) q
  = Ok (map (quantile_linear_dt dt q) (gather y indx)).
Proof.
  intros Hn Hrows Hq0 Hq1.
  destruct (Forall_rows_length _ _ _ Hrows) as (Hrl & Hin).
  unfold filter_table.
  rewrite (neighbor_outputs_table y indx kk Hn Hrl Hin). simpl.
  now apply np_quantile_axis1_dt_valid.
Qed.

Lemma gathered_row_in_range (dt : dtype) (y : vector) (idx : list nat) :
  row_in_range dt y ->
  Forall (fun j => (j < length y)%nat) idx -> idx <> [] ->
  row_in_range dt (map (fun j => nth j y 0) idx).
Proof.
  intros (Hty & Hspread) Hin Hne. split.
  - unfold array_of in *. apply Forall_forall. intros c Hc.
    apply in_map_iff in Hc. destruct Hc as (j & <- & Hj).
    rewrite Forall_forall in Hty, Hin. apply Hty, nth_In, Hin, Hj.
  - destruct (gathered_row_range y idx Hin Hne) as (Hmin & Hmax).
    eapply Qle_trans; [|exact Hspread]. lra.
Qed.

Lemma nth_quantile_dt_gather (dt : dtype) (y : vector)
      (indx : list (list nat)) (q : Q) (i : nat) :
  (i < length indx)%nat ->
  nth i (map (quantile_linear_dt dt q) (gather y indx)) NaN
  = quantile_linear_dt dt q (map (fun j => nth j y 0) (nth i indx [])).
Proof.
  intros Hi.
  rewrite (nth_indep _ NaN (quantile_linear_dt dt q []))
    by (unfold gather; rewrite !length_map; exact Hi).
  now rewrite map_nth, gather_nth.
Qed.

Lemma nth_error_nth_Some {A : Type} (l : list A) (i : nat) (d : A) :
  (i < length l)%nat -> nth_error l i = Some (nth i l d).
Proof.
  intros Hi. destruct (nth_error l i) as [a|] eqn:E.
  - now rewrite (nth_error_nth _ _ d E).
  - apply nth_error_None in E. lia.
Qed.

(** The quantile of one gathered row, in range: a finite value within the
    bounds of the row. *)
Lemma quantile_linear_dt_bounds (dt : dtype) (q : Q) (ys : list Q) :
  ys <> [] -> 0 <= q -> q <= 1 -> row_in_range dt ys ->
  exists v,
    quantile_linear_dt dt q ys = Fin v
    /\ row_min ys <= v /\ v <= row_max ys
    /\ (q == 0 -> v == row_min ys)
    /\ (q == 1 -> v == row_max ys).
Proof.
  intros Hne Hq0 Hq1 Hrange.
  pose proof (quantile_linear_dt_exact dt q ys Hne Hq0 Hq1 Hrange) as Hs.
  destruct (quantile_linear_bounds q ys Hne Hq0 Hq1)
    as (v & Hv & Hlo & Hhi & H0 & H1).
  rewrite Hv in Hs. apply num_same_Fin_inv in Hs.
  destruct Hs as (w & -> & Ew).
  exists w. split; [reflexivity|]. rewrite Ew. auto.
Qed.


(** A table as the search returns it for [y]: rows of [kk >= 1] indices of
    [y]. *)
Lemma table_row (y : vector) (indx : list (list nat)) (kk i : nat) :
  (0 < kk)%nat ->
  Forall (fun r => length r = kk
                   /\ Forall (fun j => (j < length y)%nat) r) indx ->
  (i < length indx)%nat ->
  Forall (fun j => (j < length y)%nat) (nth i indx [])
  /\ nth i indx [] <> []
  /\ length (map (fun j => nth j y 0) (nth i indx [])) = kk
  /\ map (fun j => nth j y 0) (nth i indx []) <> [].
Proof.
  intros Hk Hrows Hi.
  rewrite Forall_forall in Hrows.
  destruct (Hrows (nth i indx []) (nth_In _ _ Hi)) as (Hl & Hin).
  split; [exact Hin|]. split.
  - intros E. rewrite E in Hl. simpl in Hl. lia.
  - split; [now rewrite length_map|].
    intros E. apply (f_equal (@length Q)) in E.
    rewrite length_map in E. simpl in E. lia.
Qed.

Ltac solve_in_range :=
  split;
  [ unfold array_of; repeat constructor;
    try reflexivity; try (cbv; discriminate)
  | cbv; discriminate ].

(** C2 (as amended).  Provided the output values are values of the dtype
    of [y_output] and their largest minus their smallest is one too (so
    that no subtraction in [_lerp] wraps or overflows): for whatever table
    of two rows or more the search returns, lines 97-108 return one value
    per row, and the value at position [i] lies between the smallest and
    the largest of the [k] output values of the neighbours of sample [i];
    it is the smallest for [q_quantile = 0] and the largest for
    [q_quantile = 1].  The same holds of every vector that the filter
    returns. *)
Theorem bounds_within_range (dt : dtype) (x : matrix) (y : vector) (k : Z)
        (q : Q) (vw : bool) (p : Z) :
  row_in_range dt y ->
  (forall indx kk,
      (2 <= length indx)%nat -> (0 < kk)%nat ->
      Forall (fun r => length r = kk
                       /\ Forall (fun j => (j < length y)%nat) r) indx ->
      0 <= q -> q <= 1 ->
      exists out,
        filter_table dt y indx (length indx) q = Ok out
        /\ length out = length indx
        /\ forall i, (i < length indx)%nat ->
             let ys := map (fun j => nth j y 0) (nth i indx []) in
             exists v,
               nth_error out i = Some (Fin v)
               /\ row_min ys <= v /\ v <= row_max ys
               /\ (q == 0 -> v == row_min ys)
               /\ (q == 1 -> v == row_max ys))
  /\ forall out,
      nnqf_filter_dt dt x y k q vw p = Ok out ->
      exists indx,
        neighbor_table x k vw p = Ok indx
        /\ forall i, (i < length x)%nat ->
             exists ys v,
               np_take y (nth i indx []) = Ok ys
               /\ length ys = Z.to_nat k
               /\ nth_error out i = Some (Fin v)
               /\ row_min ys <= v /\ v <= row_max ys
               /\ (q == 0 -> v == row_min ys)
               /\ (q == 1 -> v == row_max ys).
Proof.
  intros Hrange.
  assert (forall indx kk,
      (0 < kk)%nat ->
      Forall (fun r => length r = kk
                       /\ Forall (fun j => (j < length y)%nat) r) indx ->
      0 <= q -> q <= 1 ->
      forall i, (i < length indx)%nat ->
        let ys := map (fun j => nth j y 0) (nth i indx []) in
        exists v,
          nth_error (map (quantile_linear_dt dt q) (gather y indx)) i
          = Some (Fin v)
          /\ row_min ys <= v /\ v <= row_max ys
          /\ (q == 0 -> v == row_min ys)
          /\ (q == 1 -> v == row_max ys)) as Hrow.
  { intros indx kk Hk Hrows Hq0 Hq1 i Hi ys.
    destruct (table_row y indx kk i Hk Hrows Hi) as (Hin & Hidx & _ & Hne).
    fold ys in Hne.
    pose proof (gathered_row_in_range dt y _ Hrange Hin Hidx) as Hr.
    fold ys in Hr.
    destruct (quantile_linear_dt_bounds dt q ys Hne Hq0 Hq1 Hr)
      as (v & Hv & Hb).
    exists v. split; [|exact Hb].
    rewrite (nth_error_nth_Some _ _ NaN)
      by (unfold gather; rewrite !length_map; exact Hi).
    now rewrite nth_quantile_dt_gather, <- Hv. }
  split.
  - intros indx kk Hn Hk Hrows Hq0 Hq1.
    exists (map (quantile_linear_dt dt q) (gather y indx)).
    split; [now apply (filter_table_returns dt y indx kk)|].
    split; [unfold gather; now rewrite !length_map|].
    now apply (Hrow indx kk).
  - intros out Hout. rewrite nnqf_filter_dt_unfold in Hout.
    bind_inv Hout. rename a into indx, Hbind into Htab.
    exists indx. split; [exact Htab|].
    apply neighbor_table_Ok in Htab.
    destruct Htab as (Hk & _ & Hil & Hrows).
    rewrite <- Hil in Hout. apply filter_table_Ok in Hout.
    destruct Hout as (_ & Hin & Hq0 & Hq1 & ->).
    assert (Forall (fun r => length r = Z.to_nat k
                       /\ Forall (fun j => (j < length y)%nat) r) indx)
      as Hrows'.
    { apply Forall_forall. intros r Hr.
      rewrite Forall_forall in Hrows, Hin.
      split; [apply Hrows, Hr|apply Hin, Hr]. }
    intros i Hi. rewrite <- Hil in Hi.
    destruct (Hrow indx (Z.to_nat k) ltac:(lia) Hrows' Hq0 Hq1 i Hi)
      as (v & Hv & Hb).
    destruct (table_row y indx (Z.to_nat k) i ltac:(lia) Hrows' Hi)
      as (Hrange_i & _ & Hl & _).
    exists (map (fun j => nth j y 0) (nth i indx [])), v.
    split; [now apply np_take_in_range|].
    split; [exact Hl|]. split; [exact Hv|exact Hb].
Qed.

(** The small data set as [int64], weighted, two neighbours, median. *)
Lemma bounds_within_range_witness :
  row_in_range Int64 small_y
  /\ exists indx,
      neighbor_table small_x 2 true 2 = Ok indx
      /\ forall i, (i < length small_x)%nat ->
           exists ys v,
             np_take small_y (nth i indx []) = Ok ys
             /\ length ys = Z.to_nat 2
             /\ nth_error [Fin (4 # 2); Fin (4 # 2); Fin (3 # 2)] i
                = Some (Fin v)
             /\ row_min ys <= v /\ v <= row_max ys
             /\ ((1 # 2) == 0 -> v == row_min ys)
             /\ ((1 # 2) == 1 -> v == row_max ys).
Proof.
  assert (row_in_range Int64 small_y) as Hr by solve_in_range.
  split; [exact Hr|].
  destruct (bounds_within_range Int64 small_x small_y 2 (1 # 2) true 2 Hr)
    as [_ H].
  apply H. reflexivity.
Defined.

(** C2, the claim as stated fails: for the [int64] output values
    [-2^62] and [2^62], two neighbours and the median, the subtraction in
    [_lerp] wraps and the filter returns [2^63], above the largest of the
    neighbours' output values. *)
Lemma bounds_counterexample :
  valid_input [[0]; [1]] [inject_Z (- 2 ^ 62); inject_Z (2 ^ 62)]
              2 (1 # 2) false 2 2 1
  /\ array_of Int64 [inject_Z (- 2 ^ 62); inject_Z (2 ^ 62)]
  /\ nnqf_filter_dt Int64 [[0]; [1]]
                    [inject_Z (- 2 ^ 62); inject_Z (2 ^ 62)]
                    2 (1 # 2) false 2
     = Ok [Fin (18446744073709551616 # 2); Fin (18446744073709551616 # 2)]
  /\ neighbor_table [[0]; [1]] 2 false 2 = Ok [[0; 1]; [1; 0]]%nat
  /\ row_max [inject_Z (- 2 ^ 62); inject_Z (2 ^ 62)]
     < 18446744073709551616 # 2.
Proof.
  split; [solve_valid|].
  split; [unfold array_of; repeat constructor;
          try reflexivity; cbv; discriminate|].
  split; [reflexivity|]. split; reflexivity.
Qed.

Lemma num_le_same (a a' b b' : num) :
  num_same a a' -> num_same b b' -> num_le a' b' -> num_le a b.
Proof.
  destruct a, a', b, b'; simpl; try tauto; intros E1 E2 H; lra.
Qed.




(* ================================================================== *)
(** * The feature weighting in doubles *)

Section VarianceAxis0F64.

Variables (S : nat) (j : nat).
Hypothesis j_lt_S : (j < S)%nat.

Lemma fold_sum_rows_f64 (rs : list (list float)) (r : list float) :
  length r = S -> Forall (fun r => length r = S) rs ->
  length (fold_left (zip_with PrimFloat.add) rs r) = S
  /\ nth j (fold_left (zip_with PrimFloat.add) rs r) nan
     = fold_left PrimFloat.add (column_f64 j rs) (nth j r nan).
Proof.
  intros Hr Hrs. revert r Hr.
  induction Hrs as [|r1 rs Hr1 Hrs IH]; simpl; intros r Hr.
  - split; [exact Hr|reflexivity].
  - assert (length (zip_with PrimFloat.add r r1) = S) as Hz.
    { rewrite zip_with_length. lia. }
    destruct (IH _ Hz) as (Hlen & Hnth).
    split; [exact Hlen|].
    rewrite Hnth.
    now rewrite (zip_with_nth PrimFloat.add r r1 j nan nan nan) by lia.
Qed.

Variables (x : list (list float)) (N : nat).
Hypothesis x_shape : shape x N S.
Hypothesis N_pos : (0 < N)%nat.

Lemma np_sum_axis0_f64_spec :
  length (np_sum_axis0_f64 x) = S
  /\ nth j (np_sum_axis0_f64 x) nan = sum_f64 (column_f64 j x).
Proof.
  destruct x_shape as (Hlen & Hrows).
  destruct x as [|r rs]; [simpl in Hlen; lia|].
  apply Forall_cons_iff in Hrows. destruct Hrows as (Hr & Hrs).
  simpl. exact (fold_sum_rows_f64 rs r Hr Hrs).
Qed.

Lemma np_mean_axis0_f64_spec :
  length (np_mean_axis0_f64 x) = S
  /\ nth j (np_mean_axis0_f64 x) nan = mean_f64 (column_f64 j x).
Proof.
  destruct np_sum_axis0_f64_spec as (Hl & Hn).
  unfold np_mean_axis0_f64. split; [now rewrite length_map|].
  set (f := fun s : float => PrimFloat.div s (float64_of_nat (length x))).
  rewrite (nth_indep _ nan (f nan)) by (rewrite length_map; lia).
  rewrite map_nth. unfold f, mean_f64, column_f64.
  now rewrite length_map, Hn.
Qed.

End VarianceAxis0F64.

(** Along axis 0, [np.var] in doubles computes, for every column, the mean
    of the squared deviations from the mean of the column. *)
Lemma np_var_axis0_f64_spec (x : list (list float)) (N S j : nat) :
  shape x N S -> (0 < N)%nat -> (j < S)%nat ->
  length (np_var_axis0_f64 x) = S
  /\ nth j (np_var_axis0_f64 x) nan = variance_f64 (column_f64 j x).
Proof.
  intros Hx HN Hj. unfold np_var_axis0_f64.
  set (arrmean := np_mean_axis0_f64 x).
  set (dev := map (fun r => zip_with PrimFloat.sub r arrmean) x).
  set (sq := map (map (fun d : float => PrimFloat.mul d d)) dev).
  destruct (np_mean_axis0_f64_spec S j Hj x N Hx HN) as (Hml & Hmj).
  fold arrmean in Hml, Hmj.
  assert (shape sq N S) as Hsq.
  { subst sq dev. rewrite map_map. apply shape_map; [|exact Hx].
    intros r Hr. rewrite length_map, zip_with_length. lia. }
  destruct (np_mean_axis0_f64_spec S j Hj sq N Hsq HN) as (Hl & Hn).
  split; [exact Hl|].
  rewrite Hn. unfold variance_f64. f_equal.
  unfold column_f64, sq, dev. rewrite !map_map.
  apply map_ext_in. intros r Hr.
  assert (length r = S) as Hrl.
  { destruct Hx as (_ & Hrows). rewrite Forall_forall in Hrows. auto. }
  set (g := fun d : float => PrimFloat.mul d d).
  rewrite (nth_indep _ nan (g nan))
    by (rewrite length_map, zip_with_length; lia).
  rewrite map_nth. unfold g.
  rewrite (zip_with_nth PrimFloat.sub r arrmean j nan nan nan) by lia.
  now rewrite Hmj.
Qed.

Lemma feature_weighting_f64_shape (x : list (list float)) (vw : bool)
      (N S : nat) :
  shape x N S -> shape (feature_weighting_f64 x vw) N S.
Proof.
  intros Hx. unfold feature_weighting_f64. destruct vw; [|exact Hx].
  destruct (Nat.eq_dec N 0) as [->|HN].
  - destruct Hx as (Hlen & _). apply length_zero_iff_nil in Hlen.
    subst x. split; [reflexivity|constructor].
  - destruct (Nat.eq_dec S 0) as [->|HS].
    + apply shape_map; [|exact Hx].
      intros r Hr. rewrite zip_with_length, !length_map. lia.
    + assert (length (np_var_axis0_f64 x) = S) as Hv.
      { apply (np_var_axis0_f64_spec x N S 0); [exact Hx|lia|lia]. }
      apply shape_map; [|exact Hx].
      intros r Hr. rewrite zip_with_length, !length_map. lia.
Qed.

(** C5 (as amended).  The feature-weighting stage, computed in doubles as
    NumPy computes it, returns a matrix of the shape of [X]: [X] itself
    when the flag is false; when the flag is true, entry [[i,j]] is the
    double product of [1 / v_j] and [X[i,j]], where [v_j] is the variance
    of column [j] as [np.var] computes it: the double mean of the squared
    deviations from the double mean of the column, every sum, difference,
    product and quotient rounded to a double.  [v_j] is the population
    variance up to that rounding only: it can be positive for a constant
    column and infinite for a column of large values, and [1 / v_j] is
    then finite, respectively zero. *)
Theorem feature_weighting_in_doubles (x : list (list float)) (vw : bool)
        (N S : nat) :
  shape x N S ->
  shape (feature_weighting_f64 x vw) N S
  /\ (vw = false -> feature_weighting_f64 x vw = x)
  /\ (vw = true ->
      forall i j, (i < N)%nat -> (j < S)%nat ->
        nth j (nth i (feature_weighting_f64 x vw) []) nan
        = PrimFloat.mul
            (PrimFloat.div 1%float (variance_f64 (column_f64 j x)))
            (nth j (nth i x []) nan)).
Proof.
  intros Hx. split; [now apply feature_weighting_f64_shape|].
  split; [now intros ->|]. intros -> i j Hi Hj.
  assert (0 < N)%nat as HN by lia.
  destruct (np_var_axis0_f64_spec x N S j Hx HN Hj) as (Hvl & Hvj).
  destruct Hx as (Hlen & Hrows).
  assert (length (nth i x []) = S) as Hr.
  { rewrite Forall_forall in Hrows. apply Hrows, nth_In. lia. }
  unfold feature_weighting_f64.
  set (w := map (fun v : float => PrimFloat.div 1%float v)
                (np_var_axis0_f64 x)).
  set (f := fun r : list float => zip_with PrimFloat.mul w r).
  rewrite (nth_indep _ [] (f [])) by (rewrite length_map; lia).
  rewrite map_nth. unfold f.
  rewrite (zip_with_nth PrimFloat.mul w _ j (PrimFloat.div 1%float nan)
                        nan nan)
    by (try (unfold w; rewrite length_map); lia).
  unfold w.
  rewrite (map_nth (fun v : float => PrimFloat.div 1%float v)
                   (np_var_axis0_f64 x) nan j).
  now rewrite Hvj.
Qed.

(** Three samples of two features: the variance of the second feature is
    the double nearest to [38/3], and entry [[2,1]] the double product of
    its inverse and [8]. *)
Lemma feature_weighting_in_doubles_witness :
  shape small_xf 3 2
  /\ feature_weighting_f64 small_xf false = small_xf
  /\ nth 1 (nth 2 (feature_weighting_f64 small_xf true) []) nan
     = PrimFloat.mul
         (PrimFloat.div 1%float (variance_f64 (column_f64 1 small_xf)))
         8%float
  /\ variance_f64 (column_f64 1 small_xf) = 0x1.9555555555555p+3%float
  /\ feature_weighting_f64 small_xf true
     = [[0; 0]; [0.75; 0x1.435e50d79435fp-4];
        [1.5; 0x1.435e50d79435fp-1]]%float.
Proof.
  assert (shape small_xf 3 2) as Hx
    by (split; [reflexivity|repeat constructor]).
  destruct (feature_weighting_in_doubles small_xf false 3 2 Hx)
    as (_ & Hoff & _).
  destruct (feature_weighting_in_doubles small_xf true 3 2 Hx)
    as (_ & _ & Hon).
  split; [exact Hx|]. split; [exact (Hoff eq_refl)|].
  split; [exact (Hon eq_refl 2%nat 1%nat ltac:(lia) ltac:(lia))|].
  split; reflexivity.
Defined.

(** C5, the claim as stated fails: the variance that the program divides
    by is not the population variance of the column.  For three samples
    whose one feature is the double nearest to one tenth, the population
    variance is [0] and [1 / v_j] times the column is infinite, while
    [np.var] gives [2^-112] and the program a finite weighted column.  For
    the feature values [2^600], [-2^600] and [0] the population variance
    is positive and finite, while [np.var] gives [inf] and the program a
    weighted column of zeros. *)
Lemma population_variance_counterexample :
  num_same (value_of tenth_f64) (Fin tenth)
  /\ population_variance (column 0 [[tenth]; [tenth]; [tenth]]) == 0
  /\ feature_weighting [[tenth]; [tenth]; [tenth]] true
     = [[PInf]; [PInf]; [PInf]]
  /\ variance_f64 (column_f64 0 [[tenth_f64]; [tenth_f64]; [tenth_f64]])
     = 0x1p-112%float
  /\ feature_weighting_f64 [[tenth_f64]; [tenth_f64]; [tenth_f64]] true
     = [[0x1.999999999999ap+108]; [0x1.999999999999ap+108];
        [0x1.999999999999ap+108]]%float
  /\ map (map value_of) huge_xf = map (map Fin) huge_x
  /\ 0 < population_variance (column 0 huge_x)
  /\ variance_f64 (column_f64 0 huge_xf) = infinity
  /\ feature_weighting_f64 huge_xf true = [[0]; [-0]; [0]]%float.
Proof.
  repeat split; reflexivity.
Qed.

(* ================================================================== *)
(** * A constant feature *)






(** In doubles: the variance that [np.var] returns for the constant
    integer column of these three samples is [0.0], and its weighted
    values are infinite. *)
Lemma integer_constant_feature_in_doubles :
  variance_f64 (column_f64 0 [[2; 5]; [2; 8]; [2; 6]]%float) = 0%float
  /\ map (fun r => nth 0 r nan)
         (feature_weighting_f64 [[2; 5]; [2; 8]; [2; 6]]%float true)
     = [infinity; infinity; infinity].
Proof.
  split; reflexivity.
Qed.

(* ================================================================== *)
(** * Further properties, in the dtype of the output values *)

Lemma num_same_sym (a b : num) : num_same a b -> num_same b a.
Proof.
  destruct a, b; simpl; try tauto. intros E. now symmetry.
Qed.

Lemma num_same_trans (a b c : num) :
  num_same a b -> num_same b c -> num_same a c.
Proof.
  destruct a, b, c; simpl; try tauto. intros E1 E2. now rewrite E1.
Qed.

(** What a returned vector is: the quantiles of the rows gathered with a
    well-formed table of the search. *)
Lemma nnqf_filter_dt_Ok (dt : dtype) (x : matrix) (y : vector) (k : Z)
      (q : Q) (vw : bool) (p : Z) (out : list num) :
  nnqf_filter_dt dt x y k q vw p = Ok out ->
  exists indx,
    neighbor_table x k vw p = Ok indx
    /\ (0 < k <= Z.of_nat (length x))%Z
    /\ length indx = length x
    /\ Forall (fun r => length r = Z.to_nat k
                        /\ Forall (fun j => (j < length y)%nat) r) indx
    /\ 0 <= q /\ q <= 1
    /\ out = map (quantile_linear_dt dt q) (gather y indx).
Proof.
  intros Hout. rewrite nnqf_filter_dt_unfold in Hout.
  bind_inv Hout. rename a into indx, Hbind into Htab.
  exists indx. split; [exact Htab|].
  apply neighbor_table_Ok in Htab.
  destruct Htab as (Hk & _ & Hil & Hrows).
  rewrite <- Hil in Hout. apply filter_table_Ok in Hout.
  destruct Hout as (_ & Hin & Hq0 & Hq1 & ->).
  split; [exact Hk|]. split; [exact Hil|]. split.
  - apply Forall_forall. intros r Hr.
    rewrite Forall_forall in Hrows, Hin.
    split; [apply Hrows, Hr|apply Hin, Hr].
  - auto.
Qed.

(** The quantile of the row gathered for sample [i] lies within the range
    of all of [y_output]. *)
Lemma table_quantile_in_range (dt : dtype) (y : vector)
      (indx : list (list nat)) (kk : nat) (q : Q) (i : nat) :
  row_in_range dt y -> (0 < kk)%nat ->
  Forall (fun r => length r = kk
                   /\ Forall (fun j => (j < length y)%nat) r) indx ->
  0 <= q -> q <= 1 -> (i < length indx)%nat ->
  exists v,
    nth_error (map (quantile_linear_dt dt q) (gather y indx)) i
    = Some (Fin v)
    /\ row_min y <= v /\ v <= row_max y.
Proof.
  intros Hrange Hk Hrows Hq0 Hq1 Hi.
  destruct (table_row y indx kk i Hk Hrows Hi) as (Hin & Hidx & _ & Hne).
  pose proof (gathered_row_in_range dt y _ Hrange Hin Hidx) as Hr.
  destruct (quantile_linear_dt_bounds dt q _ Hne Hq0 Hq1 Hr)
    as (v & Hv & Hlo & Hhi & _).
  destruct (gathered_row_range y _ Hin Hidx) as (Hmin & Hmax).
  exists v. split.
  - rewrite (nth_error_nth_Some _ _ NaN)
      by (unfold gather; rewrite !length_map; exact Hi).
    now rewrite nth_quantile_dt_gather, <- Hv.
  - split; eapply Qle_trans; eauto.
Qed.

(** X2.  Provided the values of [y_output] are values of its dtype and
    their largest minus their smallest is one too: every value that lines
    97-108 return, for whatever well-formed table of two rows or more, and
    every value that the filter returns, lies between the smallest and the
    largest value of [y_output]. *)
Theorem output_within_range_of_y (dt : dtype) (x : matrix) (y : vector)
        (k : Z) (q : Q) (vw : bool) (p : Z) :
  row_in_range dt y ->
  (forall indx kk,
      (2 <= length indx)%nat -> (0 < kk)%nat ->
      Forall (fun r => length r = kk
                       /\ Forall (fun j => (j < length y)%nat) r) indx ->
      0 <= q -> q <= 1 ->
      exists out,
        filter_table dt y indx (length indx) q = Ok out
        /\ length out = length indx
        /\ forall i, (i < length indx)%nat ->
             exists v, nth_error out i = Some (Fin v)
                       /\ row_min y <= v /\ v <= row_max y)
  /\ forall out,
      nnqf_filter_dt dt x y k q vw p = Ok out ->
      length out = length x
      /\ forall i, (i < length x)%nat ->
           exists v, nth_error out i = Some (Fin v)
                     /\ row_min y <= v /\ v <= row_max y.
Proof.
  intros Hrange. split.
  - intros indx kk Hn Hk Hrows Hq0 Hq1.
    exists (map (quantile_linear_dt dt q) (gather y indx)).
    split; [now apply (filter_table_returns dt y indx kk)|].
    split; [unfold gather; now rewrite !length_map|].
    intros i Hi. now apply (table_quantile_in_range dt y indx kk).
  - intros out Hout.
    destruct (nnqf_filter_dt_Ok _ _ _ _ _ _ _ _ Hout)
      as (indx & _ & Hk & Hil & Hrows & Hq0 & Hq1 & ->).
    split; [unfold gather; now rewrite !length_map|].
    intros i Hi. rewrite <- Hil in Hi.
    apply (table_quantile_in_range dt y indx (Z.to_nat k));
      try assumption. lia.
Qed.

(** The medians of the small data set lie between 1 and 3. *)
Lemma output_within_range_of_y_witness :
  row_in_range Int64 small_y
  /\ forall i, (i < length small_x)%nat ->
       exists v,
         nth_error [Fin (4 # 2); Fin (4 # 2); Fin (3 # 2)] i = Some (Fin v)
         /\ row_min small_y <= v /\ v <= row_max small_y.
Proof.
  assert (row_in_range Int64 small_y) as Hr by solve_in_range.
  split; [exact Hr|].
  destruct (output_within_range_of_y Int64 small_x small_y 2 (1 # 2)
              true 2 Hr) as [_ H].
  destruct (H [Fin (4 # 2); Fin (4 # 2); Fin (3 # 2)]) as (_ & Hb);
    [reflexivity|exact Hb].
Defined.

(** The quantile of a row that holds every output value once is the
    quantile of [y_output]. *)
Lemma table_quantile_all (dt : dtype) (y : vector) (q : Q)
      (indx : list (list nat)) (i : nat) :
  row_in_range dt y -> y <> [] -> 0 <= q -> q <= 1 ->
  Forall (fun r => Permutation (seq 0 (length y)) r) indx ->
  (i < length indx)%nat ->
  num_same (nth i (map (quantile_linear_dt dt q) (gather y indx)) NaN)
           (quantile_linear_dt dt q y).
Proof.
  intros Hrange Hy Hq0 Hq1 Hperm Hi.
  rewrite nth_quantile_dt_gather by exact Hi.
  rewrite Forall_forall in Hperm.
  pose proof (Hperm _ (nth_In indx [] Hi)) as Hp.
  set (r := nth i indx []) in *.
  assert (Permutation y (map (fun j => nth j y 0) r)) as Hpy.
  { rewrite <- (map_nth_seq y 0) at 1. now apply Permutation_map. }
  assert (Forall (fun j => (j < length y)%nat) r) as Hin.
  { apply Forall_forall. intros j Hj.
    apply (Permutation_in _ (Permutation_sym Hp)) in Hj.
    apply in_seq in Hj. lia. }
  assert (r <> []) as Hr.
  { intros E. rewrite E in Hp. apply Permutation_sym in Hp.
    apply Permutation_nil in Hp.
    destruct y; [congruence|discriminate]. }
  assert (map (fun j => nth j y 0) r <> []) as Hne.
  { destruct r; [congruence|discriminate]. }
  pose proof (gathered_row_in_range dt y r Hrange Hin Hr) as Hrr.
  eapply num_same_trans;
    [apply (quantile_linear_dt_exact dt q _ Hne Hq0 Hq1 Hrr)|].
  eapply num_same_trans;
    [|apply num_same_sym,
        (quantile_linear_dt_exact dt q y Hy Hq0 Hq1 Hrange)].
  apply num_same_sym.
  now apply quantile_linear_perm.
Qed.

(** X9.  Provided the values of [y_output] are values of its dtype and
    their largest minus their smallest is one too, and [y_output] has one
    value per sample: when every row of the index table holds every sample
    once (as it does for [num_neighbors = N], in whatever order the search
    returns them), every value that lines 97-108 return is the
    [q_quantile]-quantile of all of [y_output]; so is every value that the
    filter returns for [num_neighbors = N]. *)
Theorem all_neighbors_global_quantile (dt : dtype) (x : matrix) (y : vector)
        (q : Q) (vw : bool) (p : Z) :
  row_in_range dt y -> length y = length x ->
  (forall indx,
      (2 <= length indx)%nat -> y <> [] ->
      Forall (fun r => Permutation (seq 0 (length y)) r) indx ->
      0 <= q -> q <= 1 ->
      exists out,
        filter_table dt y indx (length indx) q = Ok out
        /\ length out = length indx
        /\ forall i, (i < length indx)%nat ->
             num_same (nth i out NaN) (quantile_linear_dt dt q y))
  /\ forall out,
      nnqf_filter_dt dt x y (Z.of_nat (length x)) q vw p = Ok out ->
      length out = length x
      /\ forall i, (i < length x)%nat ->
           num_same (nth i out NaN) (quantile_linear_dt dt q y).
Proof.
  intros Hrange Hlen. split.
  - intros indx Hn Hy Hperm Hq0 Hq1.
    exists (map (quantile_linear_dt dt q) (gather y indx)).
    assert (Forall (fun r => length r = length y
                     /\ Forall (fun j => (j < length y)%nat) r) indx)
      as Hrows.
    { apply Forall_forall. intros r Hr.
      rewrite Forall_forall in Hperm. pose proof (Hperm r Hr) as Hp.
      split.
      - rewrite <- (Permutation_length Hp). apply length_seq.
      - apply Forall_forall. intros j Hj.
        apply (Permutation_in _ (Permutation_sym Hp)) in Hj.
        apply in_seq in Hj. lia. }
    split; [now apply (filter_table_returns dt y indx (length y))|].
    split; [unfold gather; now rewrite !length_map|].
    intros i Hi. now apply table_quantile_all.
  - intros out Hout.
    destruct (nnqf_filter_dt_Ok _ _ _ _ _ _ _ _ Hout)
      as (indx & Htab & Hk & Hil & Hrows & Hq0 & Hq1 & ->).
    split; [unfold gather; now rewrite !length_map|].
    intros i Hi. rewrite <- Hil in Hi.
    assert (y <> []) as Hy.
    { intros E. rewrite E in Hlen. simpl in Hlen. lia. }
    apply table_quantile_all; try assumption.
    destruct (neighbor_table_rows _ _ _ _ _ Htab)
      as (m & _ & Ek & _ & _ & HXl & ->).
    apply Forall_forall. intros r Hr.
    apply in_map_iff in Hr. destruct Hr as (query & <- & _).
    unfold kneighbors_row. rewrite Ek, Nat2Z.id, HXl, Hlen.
    rewrite firstn_all2 by (rewrite argsort_length; lia).
    apply argsort_perm.
Qed.

(** The small data set with three neighbours: the median of [small_y]. *)
Lemma all_neighbors_global_quantile_witness :
  row_in_range Int64 small_y /\ length small_y = length small_x
  /\ forall i, (i < length small_x)%nat ->
       num_same (nth i [Fin (4 # 2); Fin (4 # 2); Fin (4 # 2)] NaN)
                (quantile_linear_dt Int64 (1 # 2) small_y).
Proof.
  assert (row_in_range Int64 small_y) as Hr by solve_in_range.
  assert (length small_y = length small_x) as Hl by reflexivity.
  split; [exact Hr|]. split; [exact Hl|].
  destruct (all_neighbors_global_quantile Int64 small_x small_y (1 # 2)
              false 2 Hr Hl) as [_ H].
  destruct (H [Fin (4 # 2); Fin (4 # 2); Fin (4 # 2)]) as (_ & Hb);
    [reflexivity|exact Hb].
Defined.

(** The median of a row of odd length is one of its values. *)
Lemma table_median_observed (dt : dtype) (y : vector)
      (indx : list (list nat)) (n i : nat) :
  row_in_range dt y ->
  Forall (fun r => length r = (2 * n + 1)%nat
                   /\ Forall (fun j => (j < length y)%nat) r) indx ->
  (i < length indx)%nat ->
  exists v j,
    nth i (map (quantile_linear_dt dt (1 # 2)) (gather y indx)) NaN = Fin v
    /\ In j (nth i indx []) /\ v == nth j y 0.
Proof.
  intros Hrange Hrows Hi.
  destruct (table_row y indx (2 * n + 1) i ltac:(lia) Hrows Hi)
    as (Hin & Hidx & Hyl & Hne).
  rewrite nth_quantile_dt_gather by exact Hi.
  set (ys := map (fun j => nth j y 0) (nth i indx [])) in *.
  pose proof (gathered_row_in_range dt y _ Hrange Hin Hidx) as Hr.
  fold ys in Hr.
  assert (0 <= (1 # 2)) as Hq0 by lra.
  assert ((1 # 2) <= 1) as Hq1 by lra.
  pose proof (quantile_linear_dt_exact dt (1 # 2) ys Hne Hq0 Hq1 Hr) as Hs.
  destruct (quantile_linear_interp (1 # 2) ys Hne Hq0 Hq1) as (v & Hv & Ev).
  rewrite Hv in Hs. apply num_same_Fin_inv in Hs.
  destruct Hs as (w & -> & Ew).
  assert (In (nth n (sort_values ys) 0) ys) as Hmid.
  { apply (proj1 (sort_values_In ys _)), nth_In.
    rewrite sort_values_length. lia. }
  apply in_map_iff in Hmid. destruct Hmid as (j & Ej & Hj).
  exists w, j. split; [reflexivity|]. split; [exact Hj|].
  rewrite Ej, Ew, Ev, Hyl.
  assert ((inject_Z (Z.of_nat (2 * n + 1)) - 1) * (1 # 2)
          == inject_Z (Z.of_nat n)) as Et.
  { replace (Z.of_nat (2 * n + 1)) with (2 * Z.of_nat n + 1)%Z by lia.
    rewrite inject_Z_plus, inject_Z_mult. simpl (inject_Z 1).
    simpl (inject_Z 2). field. }
  unfold interp. rewrite (Qfloor_comp _ _ Et), floor_nat_of_nat, Et. ring.
Qed.

(** X11.  Provided the values of [y_output] are values of its dtype and
    their largest minus their smallest is one too: with an odd number of
    neighbours and [q_quantile = 0.5], every value that lines 97-108
    return for a well-formed table, and every value that the filter
    returns, is the output value [y_output[j]] of one of the neighbours
    [j] of the sample: the median is an observed value, not an
    interpolated one. *)
Theorem median_is_a_neighbor_output (dt : dtype) (x : matrix) (y : vector)
        (k : Z) (vw : bool) (p : Z) (n : nat) :
  row_in_range dt y ->
  (forall indx,
      (2 <= length indx)%nat ->
      Forall (fun r => length r = (2 * n + 1)%nat
                       /\ Forall (fun j => (j < length y)%nat) r) indx ->
      exists out,
        filter_table dt y indx (length indx) (1 # 2) = Ok out
        /\ forall i, (i < length indx)%nat ->
             exists v j,
               nth i out NaN = Fin v /\ In j (nth i indx [])
               /\ v == nth j y 0)
  /\ (Z.to_nat k = (2 * n + 1)%nat ->
      forall out,
        nnqf_filter_dt dt x y k (1 # 2) vw p = Ok out ->
        exists indx,
          neighbor_table x k vw p = Ok indx
          /\ forall i, (i < length x)%nat ->
               exists v j,
                 nth i out NaN = Fin v /\ In j (nth i indx [])
                 /\ v == nth j y 0).
Proof.
  intros Hrange. split.
  - intros indx Hn Hrows.
    exists (map (quantile_linear_dt dt (1 # 2)) (gather y indx)).
    split.
    + apply (filter_table_returns dt y indx (2 * n + 1));
        [exact Hn|exact Hrows|lra|lra].
    + intros i Hi. now apply (table_median_observed dt y indx n).
  - intros Hk out Hout.
    destruct (nnqf_filter_dt_Ok _ _ _ _ _ _ _ _ Hout)
      as (indx & Htab & _ & Hil & Hrows & _ & _ & ->).
    exists indx. split; [exact Htab|].
    intros i Hi. rewrite <- Hil in Hi. rewrite Hk in Hrows.
    now apply (table_median_observed dt y indx n).
Qed.

(** The medians of three neighbours on the small data set. *)
Lemma median_is_a_neighbor_output_witness :
  row_in_range Int64 small_y /\ Z.to_nat 3 = (2 * 1 + 1)%nat
  /\ exists indx,
      neighbor_table small_x 3 false 2 = Ok indx
      /\ forall i, (i < length small_x)%nat ->
           exists v j,
             nth i [Fin (4 # 2); Fin (4 # 2); Fin (4 # 2)] NaN = Fin v
             /\ In j (nth i indx [])
             /\ v == nth j small_y 0.
Proof.
  assert (row_in_range Int64 small_y) as Hr by solve_in_range.
  assert (Z.to_nat 3 = (2 * 1 + 1)%nat) as Hk by reflexivity.
  split; [exact Hr|]. split; [exact Hk|].
  destruct (median_is_a_neighbor_output Int64 small_x small_y 3 false 2 1
              Hr) as [_ H].
  apply (H Hk). reflexivity.
Defined.
